(** * Wake-on-LAN: magic packet construction, broadcast engine, status polling

    A shallow embedding of [magicpacket/magicpacket.go] and of the status
    functions of [cmd/serve.go], with the properties of the specification
    proved (or refuted) on it.

    Conventions.
    - A Go [byte] is a [Z] in [0, 256); the complement [^b] is written with
      its wrap-around ([byte_not]).
    - A Go slice is a [list]; an index or slice expression out of range is a
      run-time panic, modelled by [None] in the pure fragment and by
      [Panicked] in the effectful one.
    - A Go [error] is its message ([string]); a nil error is [None].
    - Network and ICMP primitives are oracles ([Network], [Pinging]); every
      call is recorded, with its outcome, in an event log. *)

From stdpp Require Import base option list strings gmap.
From Stdlib Require Import ZArith Lia.

Local Open Scope Z_scope.
Local Open Scope nat_scope.

(** ** Go run-time fragment *)

Module Go.

Abbreviation byte := Z (only parsing).
Abbreviation error := string (only parsing).

(** [make([]byte, n)]: [n] zero bytes. *)
Definition make (n : nat) : list byte := replicate n 0%Z.

(** [s[i] = x]; panics when [i] is out of range. *)
Definition store (s : list byte) (i : nat) (x : byte) : option (list byte) :=
  if i <? length s then Some (<[i := x]> s) else None.

(** [s[i]]; panics when [i] is out of range. *)
Definition index (s : list byte) (i : nat) : option byte := s !! i.

(** [s[lo:]]; panics when [lo > len(s)]. *)
Definition slice_from (s : list byte) (lo : nat) : option (list byte) :=
  if lo <=? length s then Some (drop lo s) else None.

(** [s[lo:hi]] on an in-range window. *)
Definition slice (s : list byte) (lo hi : nat) : list byte :=
  take (hi - lo) (drop lo s).

(** The builtin [copy(dst, src)]: copies [min(len(dst), len(src))]
    elements and leaves the rest of [dst] as it was. *)
Definition copy (dst src : list byte) : list byte :=
  let n := length dst `min` length src in
  take n src ++ drop n dst.

(** [copy(s[lo:], src)] seen from [s]: the window aliases [s]. *)
Definition copy_at (s : list byte) (lo : nat) (src : list byte)
  : option (list byte) :=
  dst ← slice_from s lo; Some (take lo s ++ copy dst src).

(** [for i := lo; i < lo + n; i++ { body }] over a state that may panic. *)
Fixpoint for_range {St : Type} (n lo : nat) (body : nat → St → option St)
    (s : St) : option St :=
  match n with
  | O => Some s
  | S n' => s' ← body lo s; for_range n' (S lo) body s'
  end.

(** [^b] on a [uint8]. *)
Definition byte_not (b : byte) : byte := Z.land (Z.lnot b) 255.

End Go.

(** ** package magicpacket: the packet *)

Module magicpacket.
Import Go.

Record MagicPacket := { MacAddress : list byte }.

Definition NewMagicPacket (macAddress : list byte) : MagicPacket :=
  {| MacAddress := macAddress |}.

(** Lines 22-30 of [Broadcast]: the inlined packet builder. *)
Definition Broadcast_packet (p : MagicPacket) : option (list byte) :=
  let packet := make 102 in
  packet ← for_range 6 0 (fun i packet => store packet i 255%Z) packet;
  for_range 16 1 (fun i packet => copy_at packet (i * 6) (MacAddress p)) packet.

(** Lines 120-128 of [Send]: the second inlined packet builder. *)
Definition Send_packet (p : MagicPacket) : option (list byte) :=
  let packet := make 102 in
  packet ← for_range 6 0 (fun i packet => store packet i 255%Z) packet;
  for_range 16 1 (fun i packet => copy_at packet (i * 6) (MacAddress p)) packet.

(** The wire layout of the specification: six bytes [0xFF], then sixteen
    windows of six bytes each equal to the address. *)
Definition sync_stream (pk : list byte) : Prop :=
  slice pk 0 6 = replicate 6 255%Z.

Definition repeats_mac (pk mac : list byte) : Prop :=
  ∀ i, i < 16 → slice pk (6 + 6 * i) (12 + 6 * i) = mac.

End magicpacket.

(** ** package net of the Go standard library, and the network oracle *)

Module net.
Import Go.

(** [net.Flags] bits. *)
Definition FlagUp : Z := 1.
Definition FlagBroadcast : Z := 2.
Definition FlagLoopback : Z := 4.

Definition IPv4len : nat := 4.
Definition IPv6len : nat := 16.

Inductive result (A : Type) := Ok (a : A) | Err (e : error).
Arguments Ok {A} a.
Arguments Err {A} e.

Module IPNet.
Record t := { IP : list byte; Mask : list byte }.
End IPNet.

(** An [Addr] is an interface value: a [*net.IPNet] or another type
    ([*net.IPAddr]). *)
Inductive Addr := IPNetAddr (n : IPNet.t) | IPAddrAddr (ip : list byte).

(** One entry of [net.Interfaces()], with what [iface.Addrs()] reports. *)
Record Interface := { Flags : Z; Addrs : result (list Addr) }.

Module UDPAddr.
Record t := { IP : list byte; Port : Z }.
End UDPAddr.

Definition v4InV6Prefix : list byte :=
  [0; 0; 0; 0; 0; 0; 0; 0; 0; 0; 0xff; 0xff]%Z.

(** [net.IPv4(a, b, c, d)]: the sixteen-byte form. *)
Definition IPv4 (a b c d : byte) : list byte := v4InV6Prefix ++ [a; b; c; d].

Definition IPv4bcast : list byte := (IPv4 255 255 255 255)%Z.

Definition isZeros (p : list byte) : bool := forallb (Z.eqb 0) p.

(** [IP.To4]: the four-byte form, or nil. *)
Definition To4 (ip : list byte) : option (list byte) :=
  if length ip =? IPv4len then Some ip
  else if (length ip =? IPv6len)
          && isZeros (slice ip 0 10)
          && bool_decide (ip !! 10 = Some 0xff%Z)
          && bool_decide (ip !! 11 = Some 0xff%Z)
       then Some (slice ip 12 16)
       else None.

(** The destination of a connection: [DialUDP] takes a [*UDPAddr],
    [Dial] a ["host:port"] string. *)
Inductive Dest := UDP (a : UDPAddr.t) | Named (addr : string).

(** What the program does to the network, with the answer it got. *)
Inductive Event :=
| EvDial (d : Dest) (err : option error)
| EvWrite (d : Dest) (b : list byte) (err : option error)
| EvClose (d : Dest).

(** The environment: the interface snapshot and the outcome of every
    socket operation, which may depend on all that happened before. *)
Record Network := {
  Interfaces : result (list Interface);
  dial : list Event → Dest → option error;
  write : list Event → Dest → list byte → option error
}.

#[global] Instance UDPAddr_eq_dec : EqDecision UDPAddr.t.
Proof. solve_decision. Defined.
#[global] Instance Dest_eq_dec : EqDecision Dest.
Proof. solve_decision. Defined.

End net.

(** ** Effects: a log of events, and panics *)

Module Eff.
Import Go net.

Inductive Outcome (A : Type) := Returned (a : A) | Panicked.
Arguments Returned {A} a.
Arguments Panicked {A}.

(** A computation reads the history and yields its outcome with the
    events it emitted, oldest first. *)
Definition M (A : Type) : Type := list Event → Outcome A * list Event.

#[global] Instance M_ret : MRet M := λ A a _, (Returned a, []).

#[global] Instance M_bind : MBind M := λ A B f m h,
  match m h with
  | (Returned a, evs) =>
      match f a (h ++ evs) with (r, evs') => (r, evs ++ evs') end
  | (Panicked, evs) => (Panicked, evs)
  end.

Definition panic {A} : M A := λ _, (Panicked, []).

(** A pure step that may panic. *)
Definition lift {A} (o : option A) : M A :=
  match o with Some a => mret a | None => panic end.

Definition DialUDP (nw : Network) (a : UDPAddr.t) : M (option error) :=
  λ h, let r := dial nw h (UDP a) in (Returned r, [EvDial (UDP a) r]).

Definition Dial (nw : Network) (addr : string) : M (option error) :=
  λ h, let r := dial nw h (Named addr) in (Returned r, [EvDial (Named addr) r]).

Definition Write (nw : Network) (d : Dest) (b : list byte)
  : M (option error) :=
  λ h, let r := write nw h d b in (Returned r, [EvWrite d b r]).

Definition Close (d : Dest) : M unit := λ _, (Returned (), [EvClose d]).

(** [for _, x := range l { body }] over a state. *)
Fixpoint range {A St : Type} (l : list A) (body : A → St → M St) (s : St)
  : M St :=
  match l with
  | [] => mret s
  | x :: l' => s' ← body x s; range l' body s'
  end.

(** Every event a computation emits satisfies [P], whatever happens. *)
Definition emits {A} (P : Event → Prop) (m : M A) : Prop :=
  ∀ h, Forall P (m h).2.

End Eff.

(** ** package magicpacket: Broadcast and Send *)

Module transmit.
Import Go net Eff magicpacket.

(** Lines 63-66: a sixteen-byte mask is narrowed to its last four. *)
Definition narrow (ip4 mask : list byte) : list byte :=
  if (length mask =? IPv6len) && (length ip4 =? IPv4len)
  then drop 12 mask else mask.

(** Lines 69-72: [broadcastIP[i] = ip4[i] | ^mask[i]]; an index out of
    range panics. *)
Definition broadcastIP (ip4 mask : list byte) : option (list byte) :=
  for_range (length ip4) 0
    (fun i broadcastIP =>
       a ← index ip4 i; m ← index mask i;
       store broadcastIP i (Z.lor a (byte_not m)))
    (make (length ip4)).

(** Lines 58-77: the directed-broadcast target of one [*net.IPNet];
    [None] when the address has no four-byte form. *)
Definition target (ipNet : IPNet.t) : option (option UDPAddr.t) :=
  match To4 (IPNet.IP ipNet) with
  | None => Some None
  | Some ip4 =>
      let mask := narrow ip4 (IPNet.Mask ipNet) in
      broadcastIP ← broadcastIP ip4 mask;
      Some (Some {| UDPAddr.IP := broadcastIP; UDPAddr.Port := 9 |})
  end.

(** [fmt.Errorf("failed to send packet: %v (last error)", lastErr)]. *)
Definition Errorf_last (lastErr : error) : error :=
  "failed to send packet: " +:+ lastErr +:+ " (last error)".

(** The loop state: [sent] and [lastErr]. *)
Definition St : Type := bool * option error.

(** Lines 52-92: the body of the loop over the addresses. *)
Definition Broadcast_addr (nw : Network) (packet : list byte)
    (addr : Addr) (st : St) : M St :=
  let '(sent, lastErr) := st in
  match addr with
  | IPAddrAddr _ => mret (sent, lastErr)
  | IPNetAddr ipNet =>
      tgt ← lift (target ipNet);
      match tgt with
      | None => mret (sent, lastErr)
      | Some addr =>
          err ← DialUDP nw addr;
          match err with
          | Some err => mret (sent, Some err)
          | None =>
              err ← Write nw (UDP addr) packet;
              _ ← Close (UDP addr);
              match err with
              | Some err => mret (sent, Some err)
              | None => mret (true, lastErr)
              end
          end
      end
  end.

(** Lines 41-93: the body of the loop over the interfaces. *)
Definition Broadcast_iface (nw : Network) (packet : list byte)
    (iface : Interface) (st : St) : M St :=
  if negb (Z.land (Flags iface) FlagLoopback =? 0)%Z
     || (Z.land (Flags iface) FlagUp =? 0)%Z
     || (Z.land (Flags iface) FlagBroadcast =? 0)%Z
  then mret st
  else match Addrs iface with
       | Err _ => mret st
       | Ok addrs => range addrs (Broadcast_addr nw packet) st
       end.

(** Lines 38-93: the per-interface sends. *)
Definition Broadcast_interfaces (nw : Network) (packet : list byte)
    (ifaces : list Interface) : M St :=
  range ifaces (Broadcast_iface nw packet) (false, None).

Definition bcast : UDPAddr.t :=
  {| UDPAddr.IP := IPv4bcast; UDPAddr.Port := 9 |}.

(** Lines 97-112: the fallback to the global broadcast address. *)
Definition Broadcast_fallback (nw : Network) (packet : list byte)
    (lastErr : option error) : M (option error) :=
  let addr := bcast in
  err ← DialUDP nw addr;
  match err with
  | Some err =>
      match lastErr with
      | Some lastErr => mret (Some (Errorf_last lastErr))
      | None => mret (Some err)
      end
  | None =>
      err ← Write nw (UDP addr) packet;
      _ ← Close (UDP addr);
      mret err
  end.

(** [func (p *MagicPacket) Broadcast() error]. *)
Definition Broadcast (nw : Network) (p : MagicPacket) : M (option error) :=
  packet ← lift (Broadcast_packet p);
  match Interfaces nw with
  | Err err => mret (Some err)
  | Ok ifaces =>
      '(sent, lastErr) ← Broadcast_interfaces nw packet ifaces;
      if negb sent then Broadcast_fallback nw packet lastErr
      else mret None
  end.

(** [func (p *MagicPacket) Send(addr string) error]. *)
Definition Send (nw : Network) (p : MagicPacket) (addr : string)
  : M (option error) :=
  packet ← lift (Send_packet p);
  err ← Dial nw addr;
  match err with
  | Some err => mret (Some err)
  | None =>
      err ← Write nw (Named addr) packet;
      _ ← Close (Named addr);
      mret err
  end.

(** The masks the platform reports: [net.CIDRMask] with 32 or 128 bits,
    that is four or sixteen bytes. *)
Definition platform_Addr (a : Addr) : Prop :=
  match a with
  | IPNetAddr n =>
      length (IPNet.Mask n) = IPv4len ∨ length (IPNet.Mask n) = IPv6len
  | IPAddrAddr _ => True
  end.

Definition platform_Interface (iface : Interface) : Prop :=
  match Addrs iface with
  | Ok addrs => Forall platform_Addr addrs
  | Err _ => True
  end.

Definition platform_snapshot (ifaces : list Interface) : Prop :=
  Forall platform_Interface ifaces.

(** Reading a log. *)
Definition send_succeeded (e : Event) : bool :=
  match e with EvWrite _ _ None => true | _ => false end.

Definition failure (e : Event) : option error :=
  match e with
  | EvDial _ (Some err) | EvWrite _ _ (Some err) => Some err
  | _ => None
  end.

Definition any_sent (evs : list Event) : bool := existsb send_succeeded evs.

Definition last_failure (evs : list Event) : option error :=
  last (omap failure evs).


Definition dest (e : Event) : Dest :=
  match e with EvDial d _ | EvWrite d _ _ | EvClose d => d end.

(** The loop state after a log: [sent] once a write succeeded, [lastErr]
    the most recent failure. *)
Definition advance (st : St) (evs : list Event) : St :=
  (st.1 || any_sent evs, from_option Some st.2 (last_failure evs)).

(** [m] returns, and its result is [st] advanced by what it emitted. *)
Definition tracked (m : M St) (st : St) : Prop :=
  ∀ h, m h = (Returned (advance st (m h).2), (m h).2).

(** Every write carries the packet. *)
Definition carries (pk : list byte) (e : Event) : Prop :=
  match e with EvWrite _ b _ => b = pk | _ => True end.

(** C5, as the specification states it: whenever the fallback is attempted
    and fails, the error returned is the fallback attempt's own error. *)
Definition fallback_error_is_returned (nw : Network) (p : MagicPacket) : Prop :=
  ∀ ifaces pk r fb e,
    Interfaces nw = Ok ifaces →
    Broadcast_packet p = Some pk →
    Broadcast nw p []
    = (Returned r, (Broadcast_interfaces nw pk ifaces []).2 ++ fb) →
    last_failure fb = Some e →
    r = Some e.

End transmit.


(** ** package cmd: machine status *)

Module config.

(** Modelled from the spec: the declaration of [config.Machine] and of
    the configuration [cfg] is not among the sources. A machine has a
    name, a MAC string and an optional IP string (a [*string] in the
    code, nil when absent); the configuration holds the machines and the
    flag [Ping.Privileged]. *)
Record Machine := { Name : string; Mac : string; IP : option string }.

Record Config := { Machines : list Machine; Ping_Privileged : bool }.

End config.

(** The ICMP library [pro-bing], as far as the code uses it. *)
Module probing.
Import Go net.

(** [time.Second], in nanoseconds. *)
Definition Second : Z := 1000000000.

Record Pinger := {
  addr : string;
  privileged : bool;
  Timeout : Z;
  Count : Z
}.

(** The pinger that [NewPinger] hands out: no packet limit and no
    timeout yet, unprivileged. *)
Definition New (a : string) : Pinger :=
  {| addr := a; privileged := false;
     Timeout := 9223372036854775807; Count := -1 |}.

Definition SetPrivileged (p : Pinger) (b : bool) : Pinger :=
  {| addr := addr p; privileged := b; Timeout := Timeout p; Count := Count p |}.

Definition set_Timeout (p : Pinger) (t : Z) : Pinger :=
  {| addr := addr p; privileged := privileged p; Timeout := t; Count := Count p |}.

Definition set_Count (p : Pinger) (c : Z) : Pinger :=
  {| addr := addr p; privileged := privileged p; Timeout := Timeout p; Count := c |}.

Record Statistics := { PacketsRecv : Z }.

Inductive Event :=
| EvNewPinger (a : string) (err : option error)
| EvRun (p : Pinger) (r : result nat).

(** The environment of one poll cycle. Goroutine [task] asks for a pinger
    and runs it; a run ends in an error or with the number of echo
    replies that arrived before the timeout. *)
Record Pinging := {
  NewPinger : nat → string → option error;
  Run : nat → Pinger → result nat
}.

End probing.

Module serve.
Import Go net config probing.

(** [func isAddressReachable(addr string) (bool, error)], run by
    goroutine [task]. *)
Definition isAddressReachable (env : Pinging) (cfg : Config) (task : nat)
    (addr : string) : (bool * option error) * list Event :=
  match NewPinger env task addr with
  | Some err =>
      ((false, Some ("error creating pinger: " +:+ err)),
       [EvNewPinger addr (Some err)])
  | None =>
      let pinger := New addr in
      let pinger := SetPrivileged pinger (Ping_Privileged cfg) in
      let pinger := set_Timeout pinger (2 * Second) in
      let pinger := set_Count pinger 1 in
      let r := Run env task pinger in
      let evs := [EvNewPinger addr None; EvRun pinger r] in
      match r with
      | Err err => ((false, Some ("error pinging: " +:+ err)), evs)
      | Ok replies =>
          let stats := {| PacketsRecv := Z.of_nat replies |} in
          if (PacketsRecv stats =? 0)%Z then ((false, None), evs)
          else ((true, None), evs)
      end
  end.

(** [func getMachineStatus(machine config.Machine) (string, error)]. *)
Definition getMachineStatus (env : Pinging) (cfg : Config) (task : nat)
    (machine : Machine) : (string * option error) * list Event :=
  match IP machine with
  | None => (("unknown", None), [])
  | Some ip =>
      let '((reachable, err), evs) := isAddressReachable env cfg task ip in
      match err with
      | Some err => (("unknown", Some err), evs)
      | None =>
          if reachable then (("online", None), evs)
          else (("offline", None), evs)
      end
  end.

(** The goroutine of lines 171-182, from its probe to its critical
    section on the shared map. *)
Definition goroutine (env : Pinging) (cfg : Config)
    (task : nat * Machine) (statuses : gmap string string)
  : gmap string string :=
  let '(i, machine) := task in
  let '((status, err), _) := getMachineStatus env cfg i machine in
  match err with
  | Some _ => statuses
  | None => <[Name machine := status]> statuses
  end.

(** One goroutine per machine, numbered in the order of [cfg.Machines]. *)
Definition spawned (cfg : Config) : list (nat * Machine) :=
  imap pair (Machines cfg).

(** [func getMachinesStatus() map[string]string]. The goroutines enter
    their critical sections in some order, a permutation [order] of
    [spawned cfg]; [wg.Wait()] returns after the last one. *)
Definition getMachinesStatus (env : Pinging) (cfg : Config)
    (order : list (nat * Machine)) : gmap string string :=
  foldl (λ statuses task, goroutine env cfg task statuses) ∅ order.

(** Reading a probe log. *)
Definition runs (evs : list Event) : list (Pinger * result nat) :=
  omap (λ e, match e with EvRun p r => Some (p, r) | _ => None end) evs.

Definition replied (evs : list Event) : Prop :=
  ∃ p n, EvRun p (Ok n) ∈ evs ∧ 1 ≤ n.

(** What a goroutine stores: nothing when its probe reported an error. *)
Definition reported (env : Pinging) (cfg : Config) (task : nat * Machine)
  : option (string * string) :=
  match (getMachineStatus env cfg task.1 task.2).1 with
  | (status, None) => Some (Name task.2, status)
  | (_, Some _) => None
  end.

(** C8, as the specification states it, for one machine run by goroutine
    [task]: without an address the status is "unknown" and nothing is
    probed; with an address exactly one probe runs, with a timeout of two
    seconds and a count of one, and the status is "online" when a reply
    arrived and "offline" otherwise. *)
Definition status_as_specified (env : Pinging) (cfg : Config) (task : nat)
    (machine : Machine) : Prop :=
  let '((status, _), evs) := getMachineStatus env cfg task machine in
  match IP machine with
  | None => status = "unknown" ∧ evs = []
  | Some ip =>
      (∃ r, runs evs
            = [({| addr := ip; privileged := Ping_Privileged cfg;
                   Timeout := 2 * Second; Count := 1 |}, r)]) ∧
      (status = "online" ↔ replied evs) ∧
      (¬ replied evs → status = "offline")
  end.

End serve.

(** ** Example environments *)

Module Ex.
Import Go net Eff magicpacket transmit.

Definition mac : MagicPacket :=
  NewMagicPacket [0x00; 0x11; 0x22; 0x33; 0x44; 0x55]%Z.

Definition pk : list byte :=
  replicate 6 255%Z ++ mjoin (replicate 16 (MacAddress mac)).

Definition lan : IPNet.t :=
  {| IPNet.IP := (IPv4 192 168 1 42)%Z;
     IPNet.Mask := [255; 255; 255; 0]%Z |}.

Definition wan : IPNet.t :=
  {| IPNet.IP := [10; 0; 0; 5]%Z; IPNet.Mask := [255; 0; 0; 0]%Z |}.

(** An IPv4-mapped address reported with a sixteen-byte mask. *)
Definition mapped : IPNet.t :=
  {| IPNet.IP := (IPv4 172 16 5 9)%Z;
     IPNet.Mask := replicate 12 255%Z ++ [255; 240; 0; 0]%Z |}.

Definition lan_target : UDPAddr.t :=
  {| UDPAddr.IP := [192; 168; 1; 255]%Z; UDPAddr.Port := 9 |}.

Definition wan_target : UDPAddr.t :=
  {| UDPAddr.IP := [10; 255; 255; 255]%Z; UDPAddr.Port := 9 |}.

(** Up and broadcast-capable, with two IPv4 addresses. *)
Definition eth0 : Interface :=
  {| Flags := Z.lor FlagUp FlagBroadcast;
     Addrs := Ok [IPNetAddr lan; IPNetAddr wan] |}.

Definition lo : Interface :=
  {| Flags := Z.lor FlagUp FlagLoopback;
     Addrs := Ok [IPNetAddr {| IPNet.IP := [127; 0; 0; 1]%Z;
                               IPNet.Mask := [255; 0; 0; 0]%Z |}] |}.

(** Only the send to the second address of [eth0] goes through. *)
Definition one_path : Network :=
  {| Interfaces := Ok [lo; eth0];
     dial := λ _ d, if decide (d = UDP lan_target)
                    then Some "network is unreachable"%string else None;
     write := λ _ _ _, None |}.

(** Every directed send fails at the write; the fallback goes through. *)
Definition fallback_only : Network :=
  {| Interfaces := Ok [lo; eth0];
     dial := λ _ _, None;
     write := λ _ d _, if decide (d = UDP bcast)
                       then None else Some "operation not permitted"%string |}.

(** No socket can be opened at all. *)
Definition unreachable : Network :=
  {| Interfaces := Ok [eth0];
     dial := λ _ d, if decide (d = UDP bcast)
                    then Some "e2"%string else Some "e1"%string;
     write := λ _ _ _, None |}.

(** No usable interface, and the fallback socket opens but cannot write. *)
Definition no_iface : Network :=
  {| Interfaces := Ok [lo];
     dial := λ _ _, None;
     write := λ _ _ _, Some "message too long"%string |}.

Definition no_enum : Network :=
  {| Interfaces := Err "route ip+net: netlinkrib: permission denied";
     dial := λ _ _, None;
     write := λ _ _ _, None |}.

(** A snapshot that no platform reports: a mask of three bytes. *)
Definition short_mask : Network :=
  {| Interfaces :=
       Ok [{| Flags := Z.lor FlagUp FlagBroadcast;
              Addrs := Ok [IPNetAddr {| IPNet.IP := [10; 0; 0; 5]%Z;
                                        IPNet.Mask := [255; 0; 0]%Z |}] |}];
     dial := λ _ _, None;
     write := λ _ _ _, None |}.

End Ex.

Module ExServe.
Import Go net config probing serve.

Definition nas : Machine :=
  {| Name := "nas"; Mac := "00:11:22:33:44:55"; IP := None |}.
Definition desk : Machine :=
  {| Name := "desk"; Mac := "00:11:22:33:44:56"; IP := Some "192.168.1.20" |}.
Definition printer : Machine :=
  {| Name := "printer"; Mac := "00:11:22:33:44:57";
     IP := Some "printer.invalid" |}.

Definition cfg : Config :=
  {| Machines := [nas; desk; printer]; Ping_Privileged := false |}.

(** The name [printer.invalid] does not resolve; the desk answers. *)
Definition env : Pinging :=
  {| NewPinger := λ _ a, if decide (a = "printer.invalid")
                         then Some "lookup printer.invalid: no such host"
                         else None;
     Run := λ _ _, Ok 1 |}.

(** Unprivileged ICMP sockets are not allowed: every run fails. *)
Definition denied : Pinging :=
  {| NewPinger := λ _ _, None;
     Run := λ _ _, Err "socket: permission denied" |}.

(** The pinger that probes the desk. *)
Definition desk_pinger : Pinger :=
  {| addr := "192.168.1.20"; privileged := false;
     Timeout := 2 * Second; Count := 1 |}.

End ExServe.

(** ** The engine, read from its log *)

Module enginespec.
Import Go net Eff magicpacket transmit.

(** Line 43 read bit by bit: up (bit 0), broadcast-capable (bit 1), not a
    loopback (bit 2). *)
Definition eligible (iface : Interface) : bool :=
  Z.testbit (Flags iface) 0 && Z.testbit (Flags iface) 1
  && negb (Z.testbit (Flags iface) 2).

(** The directed-broadcast targets of a snapshot, in the order of the
    interfaces and of their addresses. *)
Definition addr_target (a : Addr) : option UDPAddr.t :=
  match a with
  | IPNetAddr n => default None (target n)
  | IPAddrAddr _ => None
  end.

Definition iface_targets (iface : Interface) : list UDPAddr.t :=
  if eligible iface
  then match Addrs iface with
       | Ok addrs => omap addr_target addrs
       | Err _ => []
       end
  else [].

Definition targets (ifaces : list Interface) : list UDPAddr.t :=
  mjoin (iface_targets <$> ifaces).

(** The destinations a log dials, oldest first. *)
Definition dialled (evs : list Event) : list Dest :=
  omap (λ e, match e with EvDial d _ => Some d | _ => None end) evs.

(** A log made of whole attempts: a refused dial, or a dial followed by
    one write of [pk] and the close of the same socket. *)
Inductive complete (pk : list byte) : list Event → Prop :=
| complete_nil : complete pk []
| complete_refused d e evs :
    complete pk evs → complete pk (EvDial d (Some e) :: evs)
| complete_sent d r evs :
    complete pk evs →
    complete pk (EvDial d None :: EvWrite d pk r :: EvClose d :: evs).

Definition opened (e : Event) : bool :=
  match e with EvDial _ None => true | _ => false end.

Definition closed (e : Event) : bool :=
  match e with EvClose _ => true | _ => false end.

(** The log a computation emits satisfies [Q], whatever happens. *)
Definition logs {A} (Q : list Event → Prop) (m : M A) : Prop :=
  ∀ h, Q (m h).2.

Definition is_byte (b : byte) : Prop := (0 ≤ b < 256)%Z.

(** A destination of [Broadcast]: port 9 of a four-byte address, or of the
    global broadcast address. *)
Definition broadcast_dest (e : Event) : Prop :=
  ∃ a, dest e = UDP a ∧ UDPAddr.Port a = 9%Z
       ∧ (length (UDPAddr.IP a) = 4 ∨ a = bcast).

End enginespec.

(** ** package cmd: HTTP handlers and the send command *)

(** Library functions of Go that package [cmd] calls, taken as they come:
    [strings.EqualFold], [net.ParseMAC], the verb [%q] of [fmt], and the
    clock. *)
Module golib.
Import Go net.

Record Library := {
  EqualFold : string → string → bool;
  ParseMAC : string → result (list byte);
  Quote : string → string;
  Now : Z
}.

(** [time.Hour], in nanoseconds. *)
Definition Hour : Z := 3600 * 1000000000.

End golib.

Module http.
Import Go.

Definition StatusSeeOther : Z := 303.
Definition StatusBadRequest : Z := 400.
Definition StatusUnauthorized : Z := 401.
Definition StatusInternalServerError : Z := 500.

(** The fields of [http.Cookie] that the code sets; [Expires] is [None]
    for the zero time. *)
Record Cookie := {
  Name : string;
  Value : string;
  Path : string;
  Expires : option Z
}.

(** What a handler asks of its [ResponseWriter], in order. *)
Inductive Call :=
| HeaderSet (key value : string)
| SetCookie (c : Cookie)
| Error (msg : string) (code : Z)
| Redirect (url : string) (code : Z).

(** What a handler reads from the request. *)
Record Request := {
  FormValue : string → string;
  BasicAuth : option (string * string);
  Cookies : list Cookie
}.

(** [r.Cookie(name)]: the first cookie of that name, or [ErrNoCookie]. *)
Definition Request_Cookie (r : Request) (name : string) : option Cookie :=
  List.find (λ c, String.eqb (Name c) name) (Cookies r).

End http.

Module handlers.
Import Go net Eff magicpacket transmit config golib http.

(** [func setFlashMessage(w http.ResponseWriter, message string)]. *)
Definition setFlashMessage (message : string) : list Call :=
  [SetCookie {| Name := "flash"; Value := message; Path := "/";
                Expires := None |}].

(** [func consumeFlashMessage(w, r) string]. *)
Definition consumeFlashMessage (lib : Library) (r : Request)
  : string * list Call :=
  match Request_Cookie r "flash" with
  | Some cookie =>
      (Value cookie,
       [SetCookie {| Name := "flash"; Value := ""; Path := "/";
                     Expires := Some (Now lib + (-1) * Hour)%Z |}])
  | None => ("", [])
  end.

(** Lines 103-109 of [handleWake]: the first machine whose name matches. *)
Fixpoint handleWake_lookup (lib : Library) (machines : list Machine)
    (machineName : string) : option Machine :=
  match machines with
  | [] => None
  | m :: machines' =>
      if EqualFold lib (config.Name m) machineName then Some m
      else handleWake_lookup lib machines' machineName
  end.

(** Lines 125-132 of [handleWake]: the unicast attempt, whose error is
    only logged. *)
Definition handleWake_unicast (nw : Network) (mp : MagicPacket)
    (machine : Machine) : M unit :=
  match IP machine with
  | Some ip =>
      if negb (String.eqb ip "")
      then let addr := ip +:+ ":9" in
           _ ← Send nw mp addr; mret ()
      else mret ()
  | None => mret ()
  end.

(** [func handleWake(w http.ResponseWriter, r *http.Request)]. *)
Definition handleWake (lib : Library) (cfg : Config) (nw : Network)
    (r : Request) : M (list Call) :=
  let machineName := FormValue r "name" in
  match handleWake_lookup lib (Machines cfg) machineName with
  | None => mret [Error "Machine not found" StatusBadRequest]
  | Some machine =>
      match ParseMAC lib (Mac machine) with
      | Err err => mret [Error err StatusBadRequest]
      | Ok mac =>
          let mp := NewMagicPacket mac in
          _ ← handleWake_unicast nw mp machine;
          err ← Broadcast nw mp;
          match err with
          | Some err => mret [Error err StatusInternalServerError]
          | None =>
              mret (setFlashMessage
                      ("Wake-up signal sent to " +:+ machineName
                       +:+ ". The machine should wake up shortly.")
                    ++ [Redirect "/" StatusSeeOther])
          end
      end
  end.

(** [m] is not the machine called [n]. *)
Definition no_match (lib : Library) (n : string) (m : Machine) : Prop :=
  EqualFold lib (config.Name m) n = false.

Definition dquote : string := String (Ascii.ascii_of_nat 34) EmptyString.

(** [func authMiddleware(next http.Handler) http.Handler]. *)
Definition authMiddleware (next : Request → M (list Call)) (r : Request)
  : M (list Call) :=
  match BasicAuth r with
  | Some (_, password) =>
      if negb (String.eqb password "4056063")
      then mret [HeaderSet "WWW-Authenticate"
                   ("Basic realm=" +:+ dquote +:+ "Restricted" +:+ dquote);
                 Error "Unauthorized" StatusUnauthorized]
      else next r
  | None =>
      mret [HeaderSet "WWW-Authenticate"
              ("Basic realm=" +:+ dquote +:+ "Restricted" +:+ dquote);
            Error "Unauthorized" StatusUnauthorized]
  end.

End handlers.

Module sendcmd.
Import Go net Eff magicpacket transmit config golib.

(** The flags of [wol send]. [mac] and [name] are [Some] when the flag was
    given on the command line ([Changed]); [ip] and [port] hold what
    [GetString] returns, the defaults being the empty string and ["9"]. *)
Record Flags := {
  mac : option string;
  name : option string;
  ip : string;
  port : string
}.

(** How the command ends: [Run] returns, [cobra.CheckErr] exits on an
    error, [log.Fatalf] does, or [PreRunE] returns an error and cobra does
    not call [Run]. *)
Inductive Exit :=
| Finished
| CheckErr (err : error)
| Fatalf (msg : string)
| Refused (err : error).

(** [PreRunE]. *)
Definition PreRunE (flags : Flags) : option error :=
  if Bool.eqb (bool_decide (is_Some (mac flags)))
              (bool_decide (is_Some (name flags)))
  then Some "either --mac or --name must be specified"
  else None.

(** [func getMacByName(name string) (net.HardwareAddr, error)]. *)
Fixpoint getMacByName (lib : Library) (machines : list Machine)
    (name : string) : result (list byte) :=
  match machines with
  | [] => Err ("machine with name " +:+ Quote lib name +:+ " not found")
  | machine :: machines' =>
      if EqualFold lib (config.Name machine) name
      then match ParseMAC lib (Mac machine) with
           | Err err => Err ("failed to parse MAC address: " +:+ err)
           | Ok mac => Ok mac
           end
      else getMacByName lib machines' name
  end.

(** Lines 35-63 of [Run]: the address, or the way the process ends. *)
Definition Run_mac (lib : Library) (cfg : Config) (flags : Flags)
  : list byte + Exit :=
  match mac flags with
  | Some value =>
      match ParseMAC lib value with
      | Err err => inr (CheckErr err)
      | Ok mac => inl mac
      end
  | None =>
      match name flags with
      | Some name =>
          match getMacByName lib (Machines cfg) name with
          | Err err => inr (CheckErr err)
          | Ok mac => inl mac
          end
      | None =>
          inr (Fatalf "mac address should come from either --mac or --name")
      end
  end.

(** [Run]. *)
Definition Run (lib : Library) (cfg : Config) (nw : Network)
    (flags : Flags) : M Exit :=
  match Run_mac lib cfg flags with
  | inr exit => mret exit
  | inl mac =>
      if negb (String.eqb (ip flags) "")
      then let addr := ip flags +:+ ":" +:+ port flags in
           let mp := NewMagicPacket mac in
           err ← Send nw mp addr;
           match err with
           | Some err => mret (CheckErr err)
           | None => mret Finished
           end
      else let mp := NewMagicPacket mac in
           err ← Broadcast nw mp;
           match err with
           | Some err => mret (CheckErr err)
           | None => mret Finished
           end
  end.

(** The command as cobra runs it: [PreRunE], then [Run]. *)
Definition sendCmd (lib : Library) (cfg : Config) (nw : Network)
    (flags : Flags) : M Exit :=
  match PreRunE flags with
  | Some err => mret (Refused err)
  | None => Run lib cfg nw flags
  end.

End sendcmd.

Module ExCmd.
Import Go net Eff magicpacket transmit config golib http handlers sendcmd.

(** A library for the examples: names compared as they are, and one
    address that parses. *)
Definition lib : Library :=
  {| EqualFold := String.eqb;
     ParseMAC := λ s, if String.eqb s "00:11:22:33:44:55"
                      then Ok [0x00; 0x11; 0x22; 0x33; 0x44; 0x55]%Z
                      else Err ("address " +:+ s +:+ ": invalid MAC address");
     Quote := λ s, dquote +:+ s +:+ dquote;
     Now := 1700000000000000000 |}.

Definition nas : Machine :=
  {| config.Name := "nas"; Mac := "00:11:22:33:44:55"; IP := None |}.

Definition gate : Machine :=
  {| config.Name := "gate"; Mac := "00:11:22:33:44:55";
     IP := Some "203.0.113.7" |}.

Definition broken : Machine :=
  {| config.Name := "broken"; Mac := "00-11"; IP := None |}.

(** Two machines share the name [twin]; only the second has a MAC that
    parses. *)
Definition twin1 : Machine :=
  {| config.Name := "twin"; Mac := "zz"; IP := None |}.
Definition twin2 : Machine :=
  {| config.Name := "twin"; Mac := "00:11:22:33:44:55"; IP := None |}.

Definition cfg : Config :=
  {| Machines := [nas; gate; broken; twin1; twin2];
     Ping_Privileged := false |}.

Definition wake (n : string) (auth : option (string * string)) : Request :=
  {| FormValue := λ k, if String.eqb k "name" then n else "";
     BasicAuth := auth; Cookies := [] |}.

(** The unicast socket cannot be opened; broadcasts go through. *)
Definition lan_only : Network :=
  {| Interfaces := Ok [Ex.lo; Ex.eth0];
     dial := λ _ d, match d with
                    | Named _ => Some "network is unreachable"
                    | UDP _ => None
                    end;
     write := λ _ _ _, None |}.

(** Only the unicast goes through. *)
Definition wan_only : Network :=
  {| Interfaces := Ok [Ex.lo; Ex.eth0];
     dial := λ _ d, match d with
                    | Named _ => None
                    | UDP _ => Some "network is unreachable"
                    end;
     write := λ _ _ _, None |}.

End ExCmd.

(** * Proofs *)

(** ** Facts about the run-time fragment *)

Section go_facts.
Import Go.

Lemma length_make n : length (make n) = n.
Proof. apply length_replicate. Qed.

Lemma store_length s i x s' : store s i x = Some s' → length s' = length s.
Proof.
  unfold store. destruct (i <? length s); [|done].
  intros [= <-]. apply length_insert.
Qed.

Lemma store_total s i x : i < length s → is_Some (store s i x).
Proof.
  intros Hi. unfold store.
  destruct (Nat.ltb_spec i (length s)); [eauto | lia].
Qed.

Lemma length_copy dst src : length (copy dst src) = length dst.
Proof.
  unfold copy. rewrite length_app, length_take, length_drop. lia.
Qed.

Lemma copy_at_total s lo src :
  lo ≤ length s → ∃ s', copy_at s lo src = Some s' ∧ length s' = length s.
Proof.
  intros Hlo. unfold copy_at, slice_from.
  destruct (Nat.leb_spec lo (length s)); [|lia]. simpl.
  eexists; split; [done|].
  rewrite length_app, length_take, length_copy, length_drop. lia.
Qed.

(** A loop whose body keeps an invariant and never panics in range
    terminates normally in a state that satisfies the invariant. *)
Lemma for_range_inv {St} (P : St → Prop) (body : nat → St → option St) :
  ∀ n lo s,
    P s →
    (∀ i t, lo ≤ i < lo + n → P t → ∃ t', body i t = Some t' ∧ P t') →
    ∃ s', for_range n lo body s = Some s' ∧ P s'.
Proof.
  induction n as [|n IH]; intros lo s Hs Hbody; simpl.
  - eauto.
  - destruct (Hbody lo s) as (t & -> & Ht); [lia | done |]. simpl.
    apply IH; [done|]. intros i u Hi Hu. apply Hbody; [lia | done].
Qed.

Lemma length_slice s lo hi :
  length (slice s lo hi) = (hi - lo) `min` (length s - lo).
Proof. unfold slice. by rewrite length_take, length_drop. Qed.

End go_facts.

(** ** The packet builder *)

Section packet.
Import Go magicpacket.

Lemma builders_agree p : Broadcast_packet p = Send_packet p.
Proof. reflexivity. Qed.

(** For an address of any length the builder runs to completion and the
    buffer keeps its 102 bytes. *)
Lemma Broadcast_packet_total p :
  ∃ pk, Broadcast_packet p = Some pk ∧ length pk = 102.
Proof.
  unfold Broadcast_packet.
  destruct (for_range_inv (fun s => length s = 102)
              (fun i packet => store packet i 255%Z) 6 0 (make 102))
    as (s1 & -> & Hs1).
  { apply length_make. }
  { intros i t Hi Ht. destruct (store_total t i 255%Z) as [t' Ht']; [lia|].
    exists t'. split; [done|]. by rewrite (store_length _ _ _ _ Ht'). }
  cbn [mbind option_bind].
  apply (for_range_inv (fun s => length s = 102)); [done|].
  intros i t Hi Ht.
  destruct (copy_at_total t (i * 6) (MacAddress p)) as (t' & ? & ?); [lia|].
  exists t'. split; [done | congruence].
Qed.

(** On a six-byte address the builder yields the sync stream followed by
    sixteen copies of the address. *)
Lemma Broadcast_packet_six p :
  length (MacAddress p) = 6 →
  Broadcast_packet p
  = Some (replicate 6 255%Z ++ mjoin (replicate 16 (MacAddress p))).
Proof.
  destruct p as [mac]; simpl.
  destruct mac as [|a [|b [|c [|d [|e [|f [|? ?]]]]]]]; try done.
Qed.

Lemma six_layout (mac : list byte) :
  length mac = 6 →
  let pk := replicate 6 255%Z ++ mjoin (replicate 16 mac) in
  length pk = 102 ∧ sync_stream pk ∧ repeats_mac pk mac.
Proof.
  destruct mac as [|a [|b [|c [|d [|e [|f [|? ?]]]]]]]; try done.
  intros _. split; [done|]. split; [done|].
  intros i Hi.
  do 16 (destruct i as [|i]; [reflexivity|]). lia.
Qed.

End packet.

(** C1. For every six-byte hardware address the payload built by
    [Broadcast] and the payload built by [Send] are 102 bytes long, start
    with six bytes [0xFF] and continue with the address repeated sixteen
    times: [bytes[6+6i : 12+6i] = m] for every repetition index [i]. *)
Theorem C1_packet_layout (p : magicpacket.MagicPacket) :
  length (magicpacket.MacAddress p) = 6 →
  ∃ pk,
    magicpacket.Broadcast_packet p = Some pk ∧
    magicpacket.Send_packet p = Some pk ∧
    length pk = 102 ∧
    (∀ i, i < 6 → pk !! i = Some 255%Z) ∧
    (∀ i, i < 16 →
       Go.slice pk (6 + 6 * i) (12 + 6 * i) = magicpacket.MacAddress p) ∧
    pk = replicate 6 255%Z ++ mjoin (replicate 16 (magicpacket.MacAddress p)).
Proof.
  intros Hlen. eexists. split; [by apply Broadcast_packet_six|].
  split; [by rewrite <- builders_agree; apply Broadcast_packet_six|].
  destruct (six_layout _ Hlen) as (Hl & Hsync & Hrep).
  split; [done|]. split; [|split; [exact Hrep | done]].
  intros i Hi. rewrite lookup_app_l by (rewrite length_replicate; lia).
  by apply lookup_replicate_2.
Qed.

Lemma C1_packet_layout_witness :
  ∃ pk,
    magicpacket.Broadcast_packet
      (magicpacket.NewMagicPacket [0x00; 0x11; 0x22; 0x33; 0x44; 0x55]%Z)
    = Some pk ∧ length pk = 102.
Proof.
  destruct (C1_packet_layout
              (magicpacket.NewMagicPacket [0x00; 0x11; 0x22; 0x33; 0x44; 0x55]%Z)
              eq_refl) as (pk & Hb & _ & Hl & _).
  exists pk. split; [exact Hb | exact Hl].
Defined.

(** ** Reasoning about logged computations *)

Section effects.
Import Go net Eff.

Lemma bind_unfold {A B} (m : M A) (f : A → M B) h :
  (m ≫= f) h
  = match m h with
    | (Returned a, evs) =>
        match f a (h ++ evs) with (r, evs') => (r, evs ++ evs') end
    | (Panicked, evs) => (Panicked, evs)
    end.
Proof. reflexivity. Qed.

Lemma bind_ret {A B} (a : A) (f : A → M B) h : (mret a ≫= f) h = f a h.
Proof.
  rewrite bind_unfold. unfold mret, M_ret. rewrite app_nil_r.
  by destruct (f a h).
Qed.

Lemma bind_first_event {A B} (m : M A) (f : A → M B) h a ev :
  m h = (Returned a, [ev]) → ∃ r evs, (m ≫= f) h = (r, ev :: evs).
Proof.
  intros Hm. rewrite bind_unfold, Hm.
  destruct (f a (h ++ [ev])) as [r evs]. by exists r, evs.
Qed.

Lemma emits_ret {A} P (a : A) : emits P (mret a).
Proof. intros h. constructor. Qed.

Lemma emits_lift {A} P (o : option A) : emits P (lift o).
Proof. intros h. destruct o; constructor. Qed.

Lemma emits_bind {A B} P (m : M A) (f : A → M B) :
  emits P m → (∀ a, emits P (f a)) → emits P (m ≫= f).
Proof.
  intros Hm Hf h. rewrite bind_unfold.
  specialize (Hm h). destruct (m h) as [[a|] evs]; simpl in *; [|done].
  specialize (Hf a (h ++ evs)). destruct (f a (h ++ evs)) as [r evs'].
  simpl in *. by apply Forall_app.
Qed.

Lemma emits_range {A St} P (body : A → St → M St) (l : list A) :
  (∀ x s, emits P (body x s)) → ∀ s, emits P (range l body s).
Proof.
  intros Hbody. induction l as [|x l IH]; intros s; simpl.
  - apply emits_ret.
  - apply emits_bind; [apply Hbody | done].
Qed.

End effects.

(** ** The transmission engine *)

Section engine.
Import Go net Eff magicpacket transmit.

(** *** Broadcast address arithmetic *)

Lemma To4_length ip ip4 : To4 ip = Some ip4 → length ip4 = 4.
Proof.
  unfold To4, IPv4len, IPv6len.
  destruct (Nat.eqb_spec (length ip) 4) as [H4|_]; [by intros [= <-]|].
  destruct (Nat.eqb_spec (length ip) 16) as [H16|_]; [|done]. simpl.
  destruct (isZeros _ && _ && _); [|done].
  intros [= <-]. rewrite length_slice. lia.
Qed.

Lemma broadcastIP_zip (ip4 mask : list byte) :
  length ip4 = 4 → 4 ≤ length mask →
  broadcastIP ip4 mask
  = Some (zip_with (λ a m, Z.lor a (byte_not m)) ip4 (take 4 mask)).
Proof.
  destruct ip4 as [|a0 [|a1 [|a2 [|a3 [|? ?]]]]]; try done. intros _.
  destruct mask as [|m0 [|m1 [|m2 [|m3 mask]]]]; simpl; try lia. done.
Qed.

Lemma narrow_length ip4 mask :
  length ip4 = 4 → length mask = 4 ∨ length mask = 16 →
  length (narrow ip4 mask) = 4.
Proof.
  intros Hip [Hm|Hm]; unfold narrow, IPv4len, IPv6len; rewrite Hip, Hm; simpl.
  - done.
  - rewrite length_drop. lia.
Qed.

Lemma narrow_trailing ip4 mask :
  length ip4 = 4 →
  narrow ip4 mask = if length mask =? 16 then drop 12 mask else mask.
Proof.
  intros Hip. unfold narrow, IPv4len, IPv6len. rewrite Hip.
  by destruct (length mask =? 16).
Qed.

Lemma target_total ipNet :
  platform_Addr (IPNetAddr ipNet) → is_Some (target ipNet).
Proof.
  simpl. intros Hm. unfold target.
  destruct (To4 (IPNet.IP ipNet)) as [ip4|] eqn:H4; [|eauto].
  pose proof (To4_length _ _ H4) as Hl.
  rewrite broadcastIP_zip; [by eauto | done |].
  rewrite narrow_length; [lia | done | done].
Qed.

Lemma testbit_255 k : (0 ≤ k < 8)%Z → Z.testbit 255 k = true.
Proof.
  intros Hk. change 255%Z with (Z.ones 8). apply Z.ones_spec_low. lia.
Qed.

Lemma byte_not_testbit m k :
  (0 ≤ k < 8)%Z → Z.testbit (byte_not m) k = negb (Z.testbit m k).
Proof.
  intros Hk. unfold byte_not.
  rewrite Z.land_spec, Z.lnot_spec, testbit_255 by lia.
  apply andb_true_r.
Qed.

Lemma byte_not_range m : (0 ≤ byte_not m < 256)%Z.
Proof.
  unfold byte_not. change 255%Z with (Z.ones 8).
  rewrite Z.land_ones by lia. apply Z.mod_pos_bound. lia.
Qed.

Lemma lor_byte_range a b :
  (0 ≤ a < 256)%Z → (0 ≤ b < 256)%Z → (0 ≤ Z.lor a b < 256)%Z.
Proof.
  intros Ha Hb.
  assert (Hland : ∀ x, (0 ≤ x < 256)%Z → Z.land x (Z.ones 8) = x).
  { intros x Hx. rewrite Z.land_ones by lia.
    apply Z.mod_small. simpl. lia. }
  rewrite <- (Hland a Ha), <- (Hland b Hb), <- Z.land_lor_distr_l.
  rewrite Z.land_ones by lia. apply Z.mod_pos_bound. lia.
Qed.

(** *** The loop state follows the log *)

Lemma advance_nil st : advance st [] = st.
Proof. destruct st as [[] ?]; reflexivity. Qed.

Lemma advance_app st e1 e2 :
  advance (advance st e1) e2 = advance st (e1 ++ e2).
Proof.
  unfold advance, any_sent, last_failure; simpl.
  rewrite existsb_app, omap_app, last_app, orb_assoc.
  by destruct (last (omap failure e2)).
Qed.

Lemma tracked_ret st : tracked (mret st) st.
Proof. intros h. simpl. by rewrite advance_nil. Qed.

Lemma tracked_bind (m : M St) (f : St → M St) st :
  tracked m st → (∀ st', tracked (f st') st') → tracked (m ≫= f) st.
Proof.
  intros Hm Hf h. rewrite bind_unfold, (Hm h).
  rewrite (Hf _ (h ++ (m h).2)). simpl. by rewrite advance_app.
Qed.

Lemma tracked_range {A} (body : A → St → M St) (l : list A) :
  Forall (λ x, ∀ st, tracked (body x st) st) l →
  ∀ st, tracked (range l body st) st.
Proof.
  induction 1 as [|x l Hx _ IH]; intros st; simpl.
  - apply tracked_ret.
  - apply tracked_bind; [apply Hx | apply IH].
Qed.

Lemma tracked_intro (m : M St) st :
  (∀ h, ∃ evs, m h = (Returned (advance st evs), evs)) → tracked m st.
Proof. intros Hm h. destruct (Hm h) as [evs ->]. done. Qed.

Lemma Broadcast_addr_tracked nw pk addr st :
  platform_Addr addr → tracked (Broadcast_addr nw pk addr st) st.
Proof.
  intros Hwf. apply tracked_intro. intros h. destruct st as [sent lastErr].
  destruct addr as [ipNet|ip]; simpl;
    [|exists []; by rewrite advance_nil].
  destruct (target_total ipNet Hwf) as [tgt Htgt]. rewrite Htgt. simpl.
  rewrite bind_ret.
  destruct tgt as [addr|]; [|exists []; by rewrite advance_nil].
  rewrite bind_unfold. unfold DialUDP.
  destruct (dial nw h (UDP addr)) as [err|] eqn:Hd; simpl.
  { exists [EvDial (UDP addr) (Some err)].
    unfold advance; simpl. by rewrite orb_false_r. }
  unfold mbind, M_bind, Write, Close; simpl.
  destruct (write nw (h ++ [EvDial (UDP addr) None]) (UDP addr) pk)
    as [err|] eqn:Hw; simpl.
  - exists [EvDial (UDP addr) None; EvWrite (UDP addr) pk (Some err);
            EvClose (UDP addr)].
    unfold advance; simpl. by rewrite orb_false_r.
  - exists [EvDial (UDP addr) None; EvWrite (UDP addr) pk None;
            EvClose (UDP addr)].
    unfold advance; simpl. by rewrite orb_true_r.
Qed.

Lemma Broadcast_iface_tracked nw pk iface st :
  platform_Interface iface → tracked (Broadcast_iface nw pk iface st) st.
Proof.
  unfold platform_Interface, Broadcast_iface. intros Hwf.
  destruct (_ || _ || _); [apply tracked_ret|].
  destruct (Addrs iface) as [addrs|e]; [|apply tracked_ret].
  apply tracked_range. eapply Forall_impl; [exact Hwf|].
  intros addr Haddr st'. by apply Broadcast_addr_tracked.
Qed.

(** The per-interface sends never panic on a platform snapshot; they
    return [sent] = "some write succeeded" and [lastErr] = "the most
    recent failure". *)
Lemma Broadcast_interfaces_log nw pk ifaces h :
  platform_snapshot ifaces →
  let evs := (Broadcast_interfaces nw pk ifaces h).2 in
  Broadcast_interfaces nw pk ifaces h
  = (Returned (any_sent evs, last_failure evs), evs).
Proof.
  intros Hwf evs. unfold Broadcast_interfaces in *.
  assert (Ht : tracked (range ifaces (Broadcast_iface nw pk) (false, None))
                 (false, None)).
  { apply tracked_range. eapply Forall_impl; [exact Hwf|].
    intros iface Hi st. by apply Broadcast_iface_tracked. }
  rewrite (Ht h). unfold advance; simpl. fold evs.
  by destruct (last_failure evs).
Qed.

(** [Broadcast] after a successful enumeration. *)
Lemma Broadcast_enumerated nw p pk ifaces h :
  Broadcast_packet p = Some pk →
  Interfaces nw = Ok ifaces →
  platform_snapshot ifaces →
  let evs := (Broadcast_interfaces nw pk ifaces h).2 in
  Broadcast nw p h
  = if any_sent evs then (Returned None, evs)
    else let fb := Broadcast_fallback nw pk (last_failure evs) (h ++ evs) in
         (fb.1, evs ++ fb.2).
Proof.
  intros Hpk Hif Hwf evs. unfold Broadcast. rewrite Hpk, Hif. simpl.
  rewrite bind_ret, bind_unfold.
  rewrite (Broadcast_interfaces_log nw pk ifaces h Hwf). fold evs.
  destruct (any_sent evs); simpl.
  - by rewrite app_nil_r.
  - by destruct (Broadcast_fallback _ _ _ _).
Qed.

Lemma any_sent_true evs :
  any_sent evs = true ↔ ∃ d b, EvWrite d b None ∈ evs.
Proof.
  unfold any_sent. rewrite existsb_exists. split.
  - intros (e & Hin & He). destruct e as [| d b [|] |]; try done.
    exists d, b. by apply list_elem_of_In.
  - intros (d & b & Hin). exists (EvWrite d b None).
    split; [by apply list_elem_of_In | done].
Qed.

Lemma any_sent_false evs :
  any_sent evs = false ↔ ∀ d b, EvWrite d b None ∉ evs.
Proof.
  rewrite <- not_true_iff_false, any_sent_true. split.
  - intros Hn d b Hin. apply Hn. eauto.
  - intros Hn (d & b & Hin). by apply (Hn d b).
Qed.

(** *** Every write carries the packet *)

Lemma emits_bind_ret {A B} P (a : A) (f : A → M B) :
  emits P (f a) → emits P (mret a ≫= f).
Proof. intros Hf h. rewrite bind_ret. apply Hf. Qed.

Lemma emits_DialUDP nw a pk : emits (carries pk) (DialUDP nw a).
Proof. intros h. by repeat constructor. Qed.

Lemma emits_Dial nw a pk : emits (carries pk) (Dial nw a).
Proof. intros h. by repeat constructor. Qed.

Lemma emits_Write nw d pk : emits (carries pk) (Write nw d pk).
Proof. intros h. by repeat constructor. Qed.

Lemma emits_Close d pk : emits (carries pk) (Close d).
Proof. intros h. by repeat constructor. Qed.

Lemma Broadcast_addr_emits nw pk addr st :
  emits (carries pk) (Broadcast_addr nw pk addr st).
Proof.
  destruct st as [sent lastErr]. destruct addr as [ipNet|ip]; simpl;
    [|apply emits_ret].
  apply emits_bind; [apply emits_lift|]. intros [addr|]; [|apply emits_ret].
  apply emits_bind; [apply emits_DialUDP|]. intros [err|]; [apply emits_ret|].
  apply emits_bind; [apply emits_Write|]. intros err.
  apply emits_bind; [apply emits_Close|]. intros _.
  destruct err; apply emits_ret.
Qed.

Lemma Broadcast_iface_emits nw pk iface st :
  emits (carries pk) (Broadcast_iface nw pk iface st).
Proof.
  unfold Broadcast_iface. destruct (_ || _ || _); [apply emits_ret|].
  destruct (Addrs iface); [|apply emits_ret].
  apply emits_range. intros. apply Broadcast_addr_emits.
Qed.

Lemma Broadcast_fallback_emits nw pk lastErr :
  emits (carries pk) (Broadcast_fallback nw pk lastErr).
Proof.
  unfold Broadcast_fallback.
  apply emits_bind; [apply emits_DialUDP|]. intros [err|].
  - destruct lastErr; apply emits_ret.
  - apply emits_bind; [apply emits_Write|]. intros err.
    apply emits_bind; [apply emits_Close|]. intros _. apply emits_ret.
Qed.

Lemma Broadcast_emits nw p pk :
  Broadcast_packet p = Some pk → emits (carries pk) (Broadcast nw p).
Proof.
  intros Hpk. unfold Broadcast. rewrite Hpk. apply emits_bind_ret.
  destruct (Interfaces nw) as [ifaces|e]; [|apply emits_ret].
  apply emits_bind.
  - apply emits_range. intros. apply Broadcast_iface_emits.
  - intros [[] lastErr]; simpl;
      [apply emits_ret | apply Broadcast_fallback_emits].
Qed.

Lemma Send_emits nw p pk addr :
  Send_packet p = Some pk → emits (carries pk) (Send nw p addr).
Proof.
  intros Hpk. unfold Send. rewrite Hpk. apply emits_bind_ret.
  apply emits_bind; [apply emits_Dial|]. intros [err|]; [apply emits_ret|].
  apply emits_bind; [apply emits_Write|]. intros err.
  apply emits_bind; [apply emits_Close|]. intros _. apply emits_ret.
Qed.

Lemma emits_elem {A} P (m : M A) h e : emits P m → e ∈ (m h).2 → P e.
Proof. intros Hm Hin. specialize (Hm h). by eapply Forall_forall in Hm. Qed.

End engine.

Section examples.
Import Go net Eff magicpacket transmit.

Lemma eth0_platform : platform_snapshot [Ex.lo; Ex.eth0].
Proof. repeat constructor; simpl; auto. Qed.

Lemma pk_built : Broadcast_packet Ex.mac = Some Ex.pk.
Proof. reflexivity. Qed.

End examples.

(** ** The claims on the transmission engine *)

Section claims.
Import Go net Eff magicpacket transmit.

(** Why the claims below take the snapshot as the platform reports it:
    with a mask of three bytes [mask[3]] is out of range and [Broadcast]
    panics before any send. *)
Example short_mask_panics :
  Broadcast Ex.short_mask Ex.mac [] = (Panicked, []).
Proof. reflexivity. Qed.

(** C3. When interface enumeration succeeds and at least one of the
    per-interface sends succeeds, [Broadcast] returns nil whatever the
    other sends did, and what it emitted is exactly the per-interface
    attempts: the global-broadcast fallback is not attempted. *)
Theorem C3_partial_success nw p pk ifaces h :
  Broadcast_packet p = Some pk →
  Interfaces nw = Ok ifaces →
  platform_snapshot ifaces →
  let attempts := (Broadcast_interfaces nw pk ifaces h).2 in
  (∃ d b, EvWrite d b None ∈ attempts) →
  Broadcast nw p h = (Returned None, attempts).
Proof.
  intros Hpk Hif Hwf attempts Hsent.
  rewrite (Broadcast_enumerated nw p pk ifaces h Hpk Hif Hwf). fold attempts.
  apply any_sent_true in Hsent. by rewrite Hsent.
Qed.

Lemma C3_partial_success_witness :
  let attempts := (Broadcast_interfaces Ex.one_path Ex.pk [Ex.lo; Ex.eth0] []).2 in
  attempts
  = [EvDial (UDP Ex.lan_target) (Some "network is unreachable"%string);
     EvDial (UDP Ex.wan_target) None;
     EvWrite (UDP Ex.wan_target) Ex.pk None;
     EvClose (UDP Ex.wan_target)]
  ∧ Broadcast Ex.one_path Ex.mac [] = (Returned None, attempts).
Proof.
  split; [reflexivity|].
  apply (C3_partial_success Ex.one_path Ex.mac Ex.pk [Ex.lo; Ex.eth0] []).
  - reflexivity.
  - reflexivity.
  - apply eth0_platform.
  - apply any_sent_true. reflexivity.
Defined.



(** The run behind the witness: both directed sends fail at the write, then
    the fallback goes through. *)
Example fallback_only_run :
  Broadcast Ex.fallback_only Ex.mac []
  = (Returned None,
     [EvDial (UDP Ex.lan_target) None;
      EvWrite (UDP Ex.lan_target) Ex.pk (Some "operation not permitted"%string);
      EvClose (UDP Ex.lan_target);
      EvDial (UDP Ex.wan_target) None;
      EvWrite (UDP Ex.wan_target) Ex.pk (Some "operation not permitted"%string);
      EvClose (UDP Ex.wan_target);
      EvDial (UDP bcast) None;
      EvWrite (UDP bcast) Ex.pk None;
      EvClose (UDP bcast)]).
Proof. reflexivity. Qed.

(** C5 fails: the directed send cannot open its socket (error [e1]), the
    fallback cannot either (error [e2]), and the caller gets a new error
    built from [e1]. *)
Lemma C5_counterexample :
  Broadcast Ex.unreachable Ex.mac []
  = (Returned (Some "failed to send packet: e1 (last error)"%string),
     [EvDial (UDP Ex.lan_target) (Some "e1"%string);
      EvDial (UDP Ex.wan_target) (Some "e1"%string);
      EvDial (UDP bcast) (Some "e2"%string)])
  ∧ ¬ fallback_error_is_returned Ex.unreachable Ex.mac.
Proof.
  split; [reflexivity|].
  intros Hclaim.
  specialize (Hclaim [Ex.eth0] Ex.pk
                (Some "failed to send packet: e1 (last error)"%string)
                [EvDial (UDP bcast) (Some "e2"%string)] "e2"%string
                eq_refl eq_refl eq_refl eq_refl).
  discriminate Hclaim.
Qed.

(** C5, amended. After a successful enumeration in which no per-interface
    send succeeded, the fallback is attempted, and when it fails:
    - its socket cannot be opened and a per-interface failure was recorded:
      the error returned is a new one built from the most recent
      per-interface error;
    - its socket cannot be opened and nothing was recorded: the error
      returned is the fallback's own;
    - its write fails: the error returned is the write's own.
    The enumeration error is returned when the enumeration failed, and then
    nothing was attempted. *)
Theorem C5_error_surfaced nw p pk h :
  Broadcast_packet p = Some pk →
  (∀ e, Interfaces nw = Err e → Broadcast nw p h = (Returned (Some e), [])) ∧
  (∀ ifaces,
     Interfaces nw = Ok ifaces →
     platform_snapshot ifaces →
     let attempts := (Broadcast_interfaces nw pk ifaces h).2 in
     (∀ d b, EvWrite d b None ∉ attempts) →
     let fb_dial := dial nw (h ++ attempts) (UDP bcast) in
     let fb_write :=
       write nw ((h ++ attempts) ++ [EvDial (UDP bcast) None]) (UDP bcast) pk in
     (∀ e lastErr,
        fb_dial = Some e → last_failure attempts = Some lastErr →
        Broadcast nw p h
        = (Returned (Some (Errorf_last lastErr)),
           attempts ++ [EvDial (UDP bcast) (Some e)])) ∧
     (∀ e,
        fb_dial = Some e → last_failure attempts = None →
        Broadcast nw p h
        = (Returned (Some e), attempts ++ [EvDial (UDP bcast) (Some e)])) ∧
     (∀ e,
        fb_dial = None → fb_write = Some e →
        Broadcast nw p h
        = (Returned (Some e),
           attempts ++ [EvDial (UDP bcast) None;
                        EvWrite (UDP bcast) pk (Some e);
                        EvClose (UDP bcast)]))).
Proof.
  intros Hpk. split.
  { intros e He. unfold Broadcast. rewrite Hpk, He. reflexivity. }
  intros ifaces Hif Hwf attempts Hnone fb_dial fb_write.
  rewrite (Broadcast_enumerated nw p pk ifaces h Hpk Hif Hwf). fold attempts.
  apply any_sent_false in Hnone. rewrite Hnone.
  unfold Broadcast_fallback. rewrite bind_unfold. unfold DialUDP.
  fold fb_dial. repeat split.
  - intros e lastErr -> ->. done.
  - intros e -> ->. done.
  - intros e -> Hw. unfold mbind, M_bind, Write, Close. simpl.
    fold fb_write. by rewrite Hw.
Qed.

Lemma C5_error_surfaced_witness :
  Broadcast_packet Ex.mac = Some Ex.pk
  ∧ Broadcast Ex.unreachable Ex.mac []
    = (Returned (Some (Errorf_last "e1")),
       (Broadcast_interfaces Ex.unreachable Ex.pk [Ex.eth0] []).2
       ++ [EvDial (UDP bcast) (Some "e2"%string)])
  ∧ Broadcast Ex.no_iface Ex.mac []
    = (Returned (Some "message too long"%string),
       (Broadcast_interfaces Ex.no_iface Ex.pk [Ex.lo] []).2
       ++ [EvDial (UDP bcast) None;
           EvWrite (UDP bcast) Ex.pk (Some "message too long"%string);
           EvClose (UDP bcast)])
  ∧ Broadcast Ex.no_enum Ex.mac []
    = (Returned (Some "route ip+net: netlinkrib: permission denied"%string), []).
Proof.
  split; [exact pk_built|]. split; [|split].
  - destruct (C5_error_surfaced Ex.unreachable Ex.mac Ex.pk [] pk_built)
      as [_ Hok].
    destruct (Hok [Ex.eth0] eq_refl) as (Hwrap & _ & _).
    + repeat constructor; simpl; auto.
    + apply any_sent_false. reflexivity.
    + apply (Hwrap "e2"%string "e1"%string); reflexivity.
  - destruct (C5_error_surfaced Ex.no_iface Ex.mac Ex.pk [] pk_built)
      as [_ Hok].
    destruct (Hok [Ex.lo] eq_refl) as (_ & _ & Hwrite).
    + repeat constructor; simpl; auto.
    + apply any_sent_false. reflexivity.
    + apply (Hwrite "message too long"%string); reflexivity.
  - destruct (C5_error_surfaced Ex.no_enum Ex.mac Ex.pk [] pk_built)
      as [Herr _].
    apply Herr. reflexivity.
Defined.

(** C6. When interface enumeration fails, [Broadcast] returns the
    enumeration error and emits nothing: no per-interface send and no
    fallback. *)
Theorem C6_enumeration_failure nw p e h :
  Interfaces nw = Err e → Broadcast nw p h = (Returned (Some e), []).
Proof.
  intros He. destruct (Broadcast_packet_total p) as (pk & Hpk & _).
  unfold Broadcast. rewrite Hpk, He. reflexivity.
Qed.

Lemma C6_enumeration_failure_witness :
  Interfaces Ex.no_enum
  = Err "route ip+net: netlinkrib: permission denied"%string
  ∧ Broadcast Ex.no_enum Ex.mac []
    = (Returned (Some "route ip+net: netlinkrib: permission denied"%string), []).
Proof.
  split; [reflexivity|].
  apply (C6_enumeration_failure Ex.no_enum Ex.mac). reflexivity.
Defined.

(** C7. For an interface address whose IP has the four-byte form [ip4]
    and whose mask has four bytes, or sixteen of which the last four are
    taken, the target that [Broadcast] dials is port 9 of the address with
    octets [ip4[i] | ^mask[i]]; bit by bit, an octet of the target has a
    bit set when the address has it set or the mask has it clear. *)
Theorem C7_directed_broadcast (ipNet : IPNet.t) (ip4 : list byte) :
  To4 (IPNet.IP ipNet) = Some ip4 →
  length (IPNet.Mask ipNet) = 4 ∨ length (IPNet.Mask ipNet) = 16 →
  let mask4 := if length (IPNet.Mask ipNet) =? 16
               then drop 12 (IPNet.Mask ipNet) else IPNet.Mask ipNet in
  let octets := zip_with (λ a m, Z.lor a (byte_not m)) ip4 mask4 in
  length ip4 = 4 ∧ length mask4 = 4 ∧ length octets = 4 ∧
  target ipNet = Some (Some {| UDPAddr.IP := octets; UDPAddr.Port := 9 |}) ∧
  (∀ nw pk st h,
     ∃ r evs,
       Broadcast_addr nw pk (IPNetAddr ipNet) st h
       = (r, EvDial (UDP {| UDPAddr.IP := octets; UDPAddr.Port := 9 |})
               (dial nw h (UDP {| UDPAddr.IP := octets; UDPAddr.Port := 9 |}))
             :: evs)) ∧
  (∀ i a m,
     ip4 !! i = Some a → mask4 !! i = Some m →
     octets !! i = Some (Z.lor a (byte_not m)) ∧
     (∀ k, (0 ≤ k < 8)%Z →
        Z.testbit (Z.lor a (byte_not m)) k
        = Z.testbit a k || negb (Z.testbit m k)) ∧
     ((0 ≤ a < 256)%Z → (0 ≤ Z.lor a (byte_not m) < 256)%Z)).
Proof.
  intros H4 Hm mask4 octets.
  pose proof (To4_length _ _ H4) as Hip.
  assert (Hnarrow : narrow ip4 (IPNet.Mask ipNet) = mask4).
  { by apply narrow_trailing. }
  assert (Hmask4 : length mask4 = 4).
  { rewrite <- Hnarrow. by apply narrow_length. }
  assert (Htgt : target ipNet
            = Some (Some {| UDPAddr.IP := octets; UDPAddr.Port := 9 |})).
  { unfold target. rewrite H4, Hnarrow.
    rewrite broadcastIP_zip by lia. simpl.
    by rewrite take_ge by lia. }
  split; [done|]. split; [done|].
  split.
  { unfold octets. by rewrite length_zip_with, Hip, Hmask4. }
  split; [done|]. split.
  - intros nw pk [sent lastErr] h. simpl. rewrite Htgt. simpl.
    rewrite bind_ret. by eapply bind_first_event.
  - intros i a m Ha Hmi. split; [|split].
    + unfold octets. rewrite lookup_zip_with, Ha. simpl. by rewrite Hmi.
    + intros k Hk. rewrite Z.lor_spec, byte_not_testbit by done. done.
    + intros Hr. apply lor_byte_range; [done | apply byte_not_range].
Qed.

Lemma C7_directed_broadcast_witness :
  target Ex.lan = Some (Some Ex.lan_target)
  ∧ target Ex.wan = Some (Some Ex.wan_target)
  ∧ target Ex.mapped
    = Some (Some {| UDPAddr.IP := [172; 31; 255; 255]%Z; UDPAddr.Port := 9 |}).
Proof.
  split; [|split].
  - exact (proj1 (proj2 (proj2 (proj2
      (C7_directed_broadcast Ex.lan [192; 168; 1; 42]%Z
         eq_refl (or_introl eq_refl)))))).
  - exact (proj1 (proj2 (proj2 (proj2
      (C7_directed_broadcast Ex.wan [10; 0; 0; 5]%Z
         eq_refl (or_introl eq_refl)))))).
  - exact (proj1 (proj2 (proj2 (proj2
      (C7_directed_broadcast Ex.mapped [172; 16; 5; 9]%Z
         eq_refl (or_intror eq_refl)))))).
Defined.

(** C9. Whatever the network does, every payload [Broadcast] writes and
    every payload [Send] writes for the same [MagicPacket] are the same
    bytes: the value of either inlined builder on the stored address. *)
Theorem C9_same_payload nw nw' (p : MagicPacket) addr h h' d b r d' b' r' :
  EvWrite d b r ∈ (Broadcast nw p h).2 →
  EvWrite d' b' r' ∈ (Send nw' p addr h').2 →
  b = b' ∧ Broadcast_packet p = Some b ∧ Send_packet p = Some b'
  ∧ length b = 102.
Proof.
  intros Hb Hs. destruct (Broadcast_packet_total p) as (pk & Hpk & Hlen).
  assert (Hspk : Send_packet p = Some pk) by (by rewrite <- builders_agree).
  apply (emits_elem _ _ _ _ (Broadcast_emits nw p pk Hpk)) in Hb.
  apply (emits_elem _ _ _ _ (Send_emits nw' p pk addr Hspk)) in Hs.
  simpl in Hb, Hs. subst b b'. done.
Qed.

Lemma C9_same_payload_witness :
  EvWrite (UDP Ex.wan_target) Ex.pk None ∈ (Broadcast Ex.one_path Ex.mac []).2
  ∧ EvWrite (Named "203.0.113.7:9") Ex.pk None
    ∈ (Send Ex.one_path Ex.mac "203.0.113.7:9" []).2
  ∧ Send_packet Ex.mac = Some Ex.pk.
Proof.
  assert (Hb : EvWrite (UDP Ex.wan_target) Ex.pk None
               ∈ (Broadcast Ex.one_path Ex.mac []).2).
  { apply (list_elem_of_lookup_2 _ 2). reflexivity. }
  assert (Hs : EvWrite (Named "203.0.113.7:9") Ex.pk None
               ∈ (Send Ex.one_path Ex.mac "203.0.113.7:9" []).2).
  { apply (list_elem_of_lookup_2 _ 1). reflexivity. }
  split; [exact Hb|]. split; [exact Hs|].
  exact (proj1 (proj2 (proj2
    (C9_same_payload Ex.one_path Ex.one_path Ex.mac "203.0.113.7:9" [] []
       _ _ _ _ _ _ Hb Hs)))).
Defined.

(** C10. For a stored address of any length both builders run to
    completion, without a panic, and yield 102 bytes; the sixteen windows
    of the layout all equal the address exactly when it has six bytes. *)
Theorem C10_builder_total (p : MagicPacket) :
  ∃ pk,
    Broadcast_packet p = Some pk ∧ Send_packet p = Some pk ∧
    length pk = 102 ∧
    (repeats_mac pk (MacAddress p) ↔ length (MacAddress p) = 6).
Proof.
  destruct (Broadcast_packet_total p) as (pk & Hpk & Hlen).
  exists pk. split; [done|]. split; [by rewrite <- builders_agree|].
  split; [done|]. split.
  - intros Hrep. rewrite <- (Hrep 0) by lia.
    rewrite length_slice, Hlen. reflexivity.
  - intros H6. rewrite (Broadcast_packet_six p H6) in Hpk.
    injection Hpk as <-. by apply six_layout.
Qed.

(** Addresses of eight, twenty and zero bytes: the copies overlap or are
    cut short, and the buffer keeps its length. *)
Example packet_of_eight :
  Broadcast_packet (NewMagicPacket [1; 2; 3; 4; 5; 6; 7; 8]%Z)
  = Some (replicate 6 255%Z
          ++ mjoin (replicate 15 [1; 2; 3; 4; 5; 6]%Z)
          ++ [1; 2; 3; 4; 5; 6]%Z).
Proof. reflexivity. Qed.

Example packet_of_twenty :
  Broadcast_packet (NewMagicPacket (Z.of_nat <$> seq 1 20))
  = Some (replicate 6 255%Z
          ++ mjoin (replicate 15 [1; 2; 3; 4; 5; 6]%Z)
          ++ [1; 2; 3; 4; 5; 6]%Z).
Proof. reflexivity. Qed.

Example packet_of_none :
  Broadcast_packet (NewMagicPacket []) = Some (replicate 6 255%Z ++ replicate 96 0%Z).
Proof. reflexivity. Qed.

End claims.

(** ** The status poller *)

Section polling.
Import Go net config probing serve.

Lemma goroutine_reported env cfg task statuses :
  goroutine env cfg task statuses
  = match reported env cfg task with
    | Some (name, status) => <[name := status]> statuses
    | None => statuses
    end.
Proof.
  destruct task as [i machine]. unfold goroutine, reported. simpl.
  by destruct (getMachineStatus env cfg i machine) as [[status [err|]] evs].
Qed.

(** The map is the list of stored pairs, latest first. *)
Lemma getMachinesStatus_list env cfg order :
  getMachinesStatus env cfg order
  = list_to_map (reverse (omap (reported env cfg) order)).
Proof.
  unfold getMachinesStatus.
  induction order as [|task order IH] using rev_ind; [done|].
  rewrite foldl_snoc, goroutine_reported, IH, omap_app, reverse_app. simpl.
  by destruct (reported env cfg task) as [[name status]|].
Qed.

(** A machine has an entry exactly when some goroutine stored its name. *)
Lemma getMachinesStatus_lookup_None env cfg order name :
  getMachinesStatus env cfg order !! name = None
  ↔ ∀ task status, task ∈ order → reported env cfg task ≠ Some (name, status).
Proof.
  rewrite getMachinesStatus_list, <- not_elem_of_list_to_map.
  rewrite fmap_reverse, elem_of_reverse, list_elem_of_fmap. split.
  - intros Hno task status Hin Hrep. apply Hno.
    exists (name, status). split; [done|].
    apply list_elem_of_omap. by exists task.
  - intros Hno ([k v] & -> & Hin).
    apply list_elem_of_omap in Hin as (task & Hin & Hrep).
    by apply (Hno task v).
Qed.

Lemma elem_of_spawned cfg i machine :
  (i, machine) ∈ spawned cfg ↔ Machines cfg !! i = Some machine.
Proof.
  unfold spawned. rewrite elem_of_lookup_imap. split.
  - by intros (j & m & [= -> ->] & Hm).
  - intros Hm. by exists i, machine.
Qed.

(** For every batch and every schedule: a machine whose probe reports an
    error, and whose name no other machine carries, has no entry. *)
Lemma errored_machine_has_no_entry env cfg order i machine err :
  order ≡ₚ spawned cfg →
  Machines cfg !! i = Some machine →
  (getMachineStatus env cfg i machine).1.2 = Some err →
  (∀ j m, Machines cfg !! j = Some m → Name m = Name machine → j = i) →
  getMachinesStatus env cfg order !! Name machine = None.
Proof.
  intros Hperm Hi Herr Huniq. apply getMachinesStatus_lookup_None.
  intros [j m] status Hin. rewrite Hperm in Hin.
  apply elem_of_spawned in Hin. unfold reported. simpl.
  destruct (getMachineStatus env cfg j m) as [[s [e|]] evs] eqn:Hst; [done|].
  intros [= Hname _]. assert (j = i) as -> by eauto.
  rewrite Hi in Hin. injection Hin as ->. rewrite Hst in Herr. done.
Qed.

(** For every batch and every schedule: a machine whose probe reports no
    error has an entry; the batch goes on past the others' errors. *)
Lemma probed_machine_has_entry env cfg order i machine :
  order ≡ₚ spawned cfg →
  Machines cfg !! i = Some machine →
  (getMachineStatus env cfg i machine).1.2 = None →
  is_Some (getMachinesStatus env cfg order !! Name machine).
Proof.
  intros Hperm Hi Hok.
  destruct (getMachinesStatus env cfg order !! Name machine) eqn:Hl; [eauto|].
  exfalso.
  apply (proj1 (getMachinesStatus_lookup_None _ _ _ _) Hl (i, machine)
           (getMachineStatus env cfg i machine).1.1).
  - rewrite Hperm. by apply elem_of_spawned.
  - unfold reported. simpl.
    by destruct (getMachineStatus env cfg i machine) as [[s [e|]] evs].
Qed.

(** With distinct stored names the schedule does not matter. *)
Lemma getMachinesStatus_schedule env cfg order :
  NoDup (omap (reported env cfg) (spawned cfg)).*1 →
  order ≡ₚ spawned cfg →
  getMachinesStatus env cfg order
  = list_to_map (omap (reported env cfg) (spawned cfg)).
Proof.
  intros Hnodup Hperm. rewrite getMachinesStatus_list.
  apply list_to_map_proper.
  - by rewrite reverse_Permutation, Hperm.
  - by rewrite reverse_Permutation, Hperm.
Qed.

End polling.

(** ** The claims on the status poller *)

Section poller_claims.
Import Go net config probing serve.

(** C2, on the batch of the specification: one machine without an IP, one
    that answers, one whose pinger cannot be built. [getMachineStatus]
    says "unknown" with an error for the third, and under every schedule
    the map that [getMachinesStatus] returns has two entries and none for
    the third machine. *)
Theorem C2_errored_machine_dropped :
  getMachineStatus ExServe.env ExServe.cfg 2 ExServe.printer
  = (("unknown",
      Some "error creating pinger: lookup printer.invalid: no such host"),
     [EvNewPinger "printer.invalid"
        (Some "lookup printer.invalid: no such host")])
  ∧ Forall
      (λ order,
         getMachinesStatus ExServe.env ExServe.cfg order
         = {[ "nas" := "unknown"; "desk" := "online" ]}
         ∧ getMachinesStatus ExServe.env ExServe.cfg order !! "printer" = None)
      (permutations (spawned ExServe.cfg)).
Proof.
  split; [reflexivity|].
  apply Forall_forall. intros order Hin.
  apply permutations_Permutation in Hin. symmetry in Hin. split.
  - rewrite (getMachinesStatus_schedule _ _ _) ; [reflexivity | | exact Hin].
    apply (bool_decide_unpack _). by vm_compute.
  - apply (errored_machine_has_no_entry ExServe.env ExServe.cfg order 2
             ExServe.printer
             "error creating pinger: lookup printer.invalid: no such host");
      [exact Hin | reflexivity | reflexivity |].
    intros j m Hj Hname.
    destruct j as [|[|[|j]]]; simpl in Hj; try done;
      injection Hj as <-; discriminate Hname.
Qed.

(** C8 fails on a run error: one probe was issued, no reply arrived, and
    the status is "unknown", not "offline". *)
Lemma C8_counterexample :
  getMachineStatus ExServe.denied ExServe.cfg 1 ExServe.desk
  = (("unknown", Some "error pinging: socket: permission denied"),
     [EvNewPinger "192.168.1.20" None;
      EvRun ExServe.desk_pinger (Err "socket: permission denied")])
  ∧ ¬ status_as_specified ExServe.denied ExServe.cfg 1 ExServe.desk.
Proof.
  split; [reflexivity|].
  unfold status_as_specified. simpl. intros (_ & _ & Hoff).
  assert (Hno : ¬ replied
            [EvNewPinger "192.168.1.20" None;
             EvRun ExServe.desk_pinger (Err "socket: permission denied")]).
  { intros (p & n & Hin & _).
    rewrite !elem_of_cons, elem_of_nil in Hin.
    destruct Hin as [?|[?|[]]]; discriminate. }
  specialize (Hoff Hno). discriminate Hoff.
Qed.

(** C8, amended. Without an address the status is "unknown", with no
    error and no probe. With an address: if the pinger cannot be built no
    probe runs and the status is "unknown", with the error; otherwise
    exactly one probe runs, with a timeout of two seconds, a count of one
    and the configured privilege, and the status is "unknown" with the
    error if the run fails, "online" if at least one reply arrived and
    "offline" if none did. *)
Theorem C8_machine_status env cfg task machine :
  (IP machine = None →
     getMachineStatus env cfg task machine = (("unknown", None), [])) ∧
  (∀ ip, IP machine = Some ip →
     let pinger := {| addr := ip; privileged := Ping_Privileged cfg;
                      Timeout := 2 * Second; Count := 1 |} in
     (∀ e, NewPinger env task ip = Some e →
        getMachineStatus env cfg task machine
        = (("unknown", Some ("error creating pinger: " +:+ e)),
           [EvNewPinger ip (Some e)])) ∧
     (∀ e, NewPinger env task ip = None → Run env task pinger = Err e →
        getMachineStatus env cfg task machine
        = (("unknown", Some ("error pinging: " +:+ e)),
           [EvNewPinger ip None; EvRun pinger (Err e)])) ∧
     (∀ n, NewPinger env task ip = None → Run env task pinger = Ok n →
        ∃ status,
          getMachineStatus env cfg task machine
          = ((status, None), [EvNewPinger ip None; EvRun pinger (Ok n)]) ∧
          (status = "online" ↔ 1 ≤ n) ∧
          (status = "offline" ↔ n = 0))).
Proof.
  unfold getMachineStatus, isAddressReachable. split.
  { by intros ->. }
  intros ip ->. simpl. split; [|split].
  - by intros e ->.
  - intros e -> Hrun. unfold SetPrivileged, set_Timeout, set_Count. simpl.
    by rewrite Hrun.
  - intros n -> Hrun. unfold SetPrivileged, set_Timeout, set_Count. simpl.
    rewrite Hrun. destruct n as [|n]; simpl.
    + exists "offline"%string. split; [done|]. split; [|done].
      split; [done|lia].
    + exists "online"%string. split; [done|]. split; [|done].
      split; [lia|done].
Qed.

Lemma C8_machine_status_witness :
  getMachineStatus ExServe.env ExServe.cfg 0 ExServe.nas
  = (("unknown", None), [])
  ∧ getMachineStatus ExServe.env ExServe.cfg 2 ExServe.printer
    = (("unknown",
        Some "error creating pinger: lookup printer.invalid: no such host"),
       [EvNewPinger "printer.invalid"
          (Some "lookup printer.invalid: no such host")])
  ∧ getMachineStatus ExServe.denied ExServe.cfg 1 ExServe.desk
    = (("unknown", Some "error pinging: socket: permission denied"),
       [EvNewPinger "192.168.1.20" None;
        EvRun ExServe.desk_pinger (Err "socket: permission denied")])
  ∧ ∃ status,
      getMachineStatus ExServe.env ExServe.cfg 1 ExServe.desk
      = ((status, None),
         [EvNewPinger "192.168.1.20" None; EvRun ExServe.desk_pinger (Ok 1)])
      ∧ (status = "online" ↔ 1 ≤ 1).
Proof.
  split; [|split; [|split]].
  - exact (proj1 (C8_machine_status ExServe.env ExServe.cfg 0 ExServe.nas)
             eq_refl).
  - destruct (proj2 (C8_machine_status ExServe.env ExServe.cfg 2
                       ExServe.printer) "printer.invalid" eq_refl)
      as (Hnew & _ & _).
    exact (Hnew "lookup printer.invalid: no such host" eq_refl).
  - destruct (proj2 (C8_machine_status ExServe.denied ExServe.cfg 1
                       ExServe.desk) "192.168.1.20" eq_refl)
      as (_ & Hrun & _).
    exact (Hrun "socket: permission denied" eq_refl eq_refl).
  - destruct (proj2 (C8_machine_status ExServe.env ExServe.cfg 1
                       ExServe.desk) "192.168.1.20" eq_refl)
      as (_ & _ & Hok).
    destruct (Hok 1 eq_refl eq_refl) as (status & Hst & Hon & _).
    exists status. split; [exact Hst | exact Hon].
Defined.

End poller_claims.

(** * Further properties of the code *)

(** ** Send and the shape of the logs *)

Section engine_logs.
Import Go net Eff magicpacket transmit enginespec.

Lemma Send_packet_total p : ∃ pk, Send_packet p = Some pk ∧ length pk = 102.
Proof.
  destruct (Broadcast_packet_total p) as (pk & Hpk & Hlen).
  exists pk. by rewrite <- builders_agree.
Qed.

Lemma Send_run nw p pk addr h :
  Send_packet p = Some pk →
  match dial nw h (Named addr) with
  | Some e =>
      Send nw p addr h = (Returned (Some e), [EvDial (Named addr) (Some e)])
  | None =>
      let w := write nw (h ++ [EvDial (Named addr) None]) (Named addr) pk in
      Send nw p addr h
      = (Returned w,
         [EvDial (Named addr) None; EvWrite (Named addr) pk w;
          EvClose (Named addr)])
  end.
Proof.
  intros Hpk. unfold Send. rewrite Hpk. simpl lift.
  rewrite bind_ret, bind_unfold.
  unfold Dial. destruct (dial nw h (Named addr)) as [e|]; [done|].
  unfold mbind, M_bind, Write, Close. simpl. done.
Qed.

(** [Send] dials its address once and nothing else: a refused dial is
    returned as it is, with no write; otherwise the 102 bytes are written
    once, the socket is closed, and the result is the write's. *)
Theorem Send_one_attempt nw p addr h :
  ∃ pk,
    Send_packet p = Some pk ∧ length pk = 102 ∧
    match dial nw h (Named addr) with
    | Some e =>
        Send nw p addr h
        = (Returned (Some e), [EvDial (Named addr) (Some e)])
    | None =>
        let w := write nw (h ++ [EvDial (Named addr) None]) (Named addr) pk in
        Send nw p addr h
        = (Returned w,
           [EvDial (Named addr) None; EvWrite (Named addr) pk w;
            EvClose (Named addr)])
    end.
Proof.
  destruct (Send_packet_total p) as (pk & Hpk & Hlen).
  exists pk. split; [done|]. split; [done|].
  by apply Send_run.
Qed.

Lemma logs_ret {A} (Q : list Event → Prop) (a : A) : Q [] → logs Q (mret a).
Proof. intros HQ h. exact HQ. Qed.

Lemma logs_lift {A} (Q : list Event → Prop) (o : option A) :
  Q [] → logs Q (lift o).
Proof. intros HQ h. by destruct o. Qed.

Lemma logs_bind {A B} (Q : list Event → Prop) (m : M A) (f : A → M B) :
  (∀ e1 e2, Q e1 → Q e2 → Q (e1 ++ e2)) →
  logs Q m → (∀ a, logs Q (f a)) → logs Q (m ≫= f).
Proof.
  intros Happ Hm Hf h. rewrite bind_unfold.
  specialize (Hm h). destruct (m h) as [[a|] evs]; simpl in *; [|done].
  specialize (Hf a (h ++ evs)). destruct (f a (h ++ evs)) as [r evs'].
  simpl in *. by apply Happ.
Qed.

Lemma logs_range {A St} (Q : list Event → Prop) (body : A → St → M St) l :
  Q [] → (∀ e1 e2, Q e1 → Q e2 → Q (e1 ++ e2)) →
  (∀ x s, logs Q (body x s)) → ∀ s, logs Q (range l body s).
Proof.
  intros Hnil Happ Hbody. induction l as [|x l IH]; intros s; simpl.
  - by apply logs_ret.
  - apply logs_bind; [done | apply Hbody | done].
Qed.

Lemma complete_app pk e1 e2 :
  complete pk e1 → complete pk e2 → complete pk (e1 ++ e2).
Proof. induction 1; intros He2; simpl; [done | | ]; constructor; auto. Qed.

Lemma complete_balanced pk evs :
  complete pk evs →
  length (List.filter opened evs) = length (List.filter closed evs).
Proof.
  induction 1 as [|d e evs _ IH|d r evs _ IH]; simpl; [done | done | lia].
Qed.

Lemma Broadcast_addr_complete nw pk addr st :
  logs (complete pk) (Broadcast_addr nw pk addr st).
Proof.
  intros h. destruct st as [sent lastErr].
  destruct addr as [ipNet|ip]; simpl; [|constructor].
  destruct (target ipNet) as [[a|]|]; simpl; try constructor.
  rewrite bind_ret, bind_unfold. unfold DialUDP.
  destruct (dial nw h (UDP a)) as [e|]; simpl; [repeat constructor|].
  unfold mbind, M_bind, Write, Close. simpl.
  destruct (write nw _ (UDP a) pk); simpl; repeat constructor.
Qed.

Lemma Broadcast_fallback_complete nw pk lastErr :
  logs (complete pk) (Broadcast_fallback nw pk lastErr).
Proof.
  intros h. unfold Broadcast_fallback. rewrite bind_unfold. unfold DialUDP.
  destruct (dial nw h (UDP bcast)) as [e|]; simpl.
  - destruct lastErr; simpl; repeat constructor.
  - unfold mbind, M_bind, Write, Close. simpl. repeat constructor.
Qed.

Lemma Broadcast_complete nw p pk :
  Broadcast_packet p = Some pk → logs (complete pk) (Broadcast nw p).
Proof.
  intros Hpk h. unfold Broadcast. rewrite Hpk. simpl lift. rewrite bind_ret.
  destruct (Interfaces nw) as [ifaces|e]; [|constructor].
  revert h. apply logs_bind; [apply complete_app | |].
  - apply logs_range; [constructor | apply complete_app |].
    intros iface st. unfold Broadcast_iface.
    destruct (_ || _ || _); [by apply logs_ret; constructor|].
    destruct (Addrs iface); [|by apply logs_ret; constructor].
    apply logs_range; [constructor | apply complete_app |].
    intros. apply Broadcast_addr_complete.
  - intros [[] lastErr]; simpl.
    + apply logs_ret. constructor.
    + apply Broadcast_fallback_complete.
Qed.

(** Whatever the network does, and even if a run stops in a panic, the
    logs of [Broadcast] and of [Send] are made of whole attempts: a refused
    dial, or a dial, one write of the packet and the close of that socket.
    So as many sockets are closed as were opened. *)
Theorem sockets_always_closed nw p addr h :
  ∃ pk,
    Broadcast_packet p = Some pk ∧
    complete pk (Broadcast nw p h).2 ∧
    complete pk (Send nw p addr h).2 ∧
    length (List.filter opened (Broadcast nw p h).2)
    = length (List.filter closed (Broadcast nw p h).2) ∧
    length (List.filter opened (Send nw p addr h).2)
    = length (List.filter closed (Send nw p addr h).2).
Proof.
  destruct (Broadcast_packet_total p) as (pk & Hpk & Hlen). exists pk.
  assert (Hb : complete pk (Broadcast nw p h).2)
    by (by apply Broadcast_complete).
  assert (Hs : complete pk (Send nw p addr h).2).
  { assert (Hspk : Send_packet p = Some pk) by (by rewrite <- builders_agree).
    pose proof (Send_run nw p pk addr h Hspk) as Hrun.
    destruct (dial nw h (Named addr)); rewrite Hrun; repeat constructor. }
  split; [done|]. split; [done|]. split; [done|].
  split; by eapply complete_balanced.
Qed.

End engine_logs.

(** ** Which interfaces and addresses are tried *)

Section engine_targets.
Import Go net Eff magicpacket transmit enginespec.

Lemma for_range_keeps {St} (P : St → Prop) (body : nat → St → option St) :
  (∀ i t t', body i t = Some t' → P t → P t') →
  ∀ n lo s s', P s → for_range n lo body s = Some s' → P s'.
Proof.
  intros Hbody. induction n as [|n IH]; intros lo s s' Hs; simpl.
  - by intros [= <-].
  - destruct (body lo s) as [t|] eqn:Ht; [|done]. simpl.
    apply IH. by eapply Hbody.
Qed.

Lemma broadcastIP_length ip4 mask b :
  broadcastIP ip4 mask = Some b → length b = length ip4.
Proof.
  unfold broadcastIP. intros Hb.
  eapply (for_range_keeps (λ s, length s = length ip4)); [| |exact Hb].
  - intros i t t' Hbody Ht. simpl in Hbody.
    destruct (index ip4 i); [|done]. destruct (index mask i); [|done].
    simpl in Hbody. by rewrite (store_length _ _ _ _ Hbody).
  - apply length_make.
Qed.

Lemma target_shape ipNet t :
  target ipNet = Some (Some t) →
  UDPAddr.Port t = 9%Z ∧ length (UDPAddr.IP t) = 4.
Proof.
  unfold target. destruct (To4 (IPNet.IP ipNet)) as [ip4|] eqn:H4; [|done].
  destruct (broadcastIP ip4 _) as [b|] eqn:Hb; [|done]. simpl.
  intros [= <-]. simpl. split; [done|].
  rewrite (broadcastIP_length _ _ _ Hb). by eapply To4_length.
Qed.

Lemma Broadcast_addr_dests nw pk addr st :
  emits broadcast_dest (Broadcast_addr nw pk addr st).
Proof.
  intros h. destruct st as [sent lastErr].
  destruct addr as [ipNet|ip]; simpl; [|constructor].
  destruct (target ipNet) as [[a|]|] eqn:Ht; simpl; try constructor.
  destruct (target_shape _ _ Ht) as [Hport Hlen].
  assert (Hd : ∀ e, dest e = UDP a → broadcast_dest e).
  { intros e He. exists a. auto. }
  rewrite bind_ret, bind_unfold. unfold DialUDP.
  destruct (dial nw h (UDP a)) as [e|]; simpl.
  { repeat constructor. by apply Hd. }
  unfold mbind, M_bind, Write, Close. simpl.
  destruct (write nw _ (UDP a) pk); simpl; repeat constructor; by apply Hd.
Qed.

Lemma Broadcast_dests nw p pk :
  Broadcast_packet p = Some pk → emits broadcast_dest (Broadcast nw p).
Proof.
  intros Hpk. unfold Broadcast. rewrite Hpk. apply emits_bind_ret.
  destruct (Interfaces nw) as [ifaces|e]; [|apply emits_ret].
  apply emits_bind.
  - apply emits_range. intros iface st. unfold Broadcast_iface.
    destruct (_ || _ || _); [apply emits_ret|].
    destruct (Addrs iface); [|apply emits_ret].
    apply emits_range. intros. apply Broadcast_addr_dests.
  - intros [[] lastErr]; simpl; [apply emits_ret|].
    assert (Hd : ∀ e, dest e = UDP bcast → broadcast_dest e).
    { intros e He. exists bcast. auto. }
    intros h. unfold Broadcast_fallback. rewrite bind_unfold. unfold DialUDP.
    destruct (dial nw h (UDP bcast)) as [e|]; simpl.
    + destruct lastErr; simpl; repeat constructor; by apply Hd.
    + unfold mbind, M_bind, Write, Close. simpl.
      repeat constructor; by apply Hd.
Qed.

(** Every socket operation of [Broadcast] goes to UDP port 9, of a
    four-byte directed-broadcast address or of 255.255.255.255: no other
    port and no named host is ever contacted. *)
Theorem Broadcast_only_port_9 nw p h :
  Forall broadcast_dest (Broadcast nw p h).2.
Proof.
  destruct (Broadcast_packet_total p) as (pk & Hpk & _).
  by apply (Broadcast_dests nw p pk).
Qed.

Lemma land_bit_eqb f k :
  (0 ≤ k)%Z → (Z.land f (2 ^ k) =? 0)%Z = negb (Z.testbit f k).
Proof.
  intros Hk. destruct (Z.testbit f k) eqn:Hb; simpl.
  - apply Z.eqb_neq. intros H0.
    assert (Hbit : Z.testbit (Z.land f (2 ^ k)) k = true).
    { rewrite Z.land_spec, Hb, Z.pow2_bits_true by lia. done. }
    rewrite H0, Z.bits_0 in Hbit. done.
  - apply Z.eqb_eq. apply Z.bits_inj'. intros j Hj.
    rewrite Z.land_spec, Z.bits_0, Z.pow2_bits_eqb by lia.
    destruct (Z.eqb_spec k j) as [->|]; [by rewrite Hb | apply andb_false_r].
Qed.

(** The test of line 43 is a test of three bits: the interface is used
    exactly when it is up and broadcast-capable and not a loopback,
    whatever its other flags. *)
Lemma Broadcast_iface_eligible nw pk iface st :
  Broadcast_iface nw pk iface st
  = if eligible iface
    then match Addrs iface with
         | Ok addrs => range addrs (Broadcast_addr nw pk) st
         | Err _ => mret st
         end
    else mret st.
Proof.
  unfold Broadcast_iface, eligible, FlagLoopback, FlagUp, FlagBroadcast.
  rewrite (land_bit_eqb _ 2), (land_bit_eqb _ 0), (land_bit_eqb _ 1) by lia.
  destruct (Z.testbit (Flags iface) 0), (Z.testbit (Flags iface) 1),
    (Z.testbit (Flags iface) 2); done.
Qed.

(** Interfaces that are down, loopback or not broadcast-capable leave no
    trace: the per-interface sends are those of the eligible interfaces
    alone, with the same result and the same log. *)
Theorem ineligible_interfaces_skipped nw pk ifaces h :
  Broadcast_interfaces nw pk ifaces h
  = Broadcast_interfaces nw pk (List.filter eligible ifaces) h.
Proof.
  unfold Broadcast_interfaces. generalize (false, None : option string).
  revert h. induction ifaces as [|iface ifaces IH]; intros h st; [done|].
  simpl. destruct (eligible iface) eqn:He; simpl.
  - rewrite !bind_unfold.
    destruct (Broadcast_iface nw pk iface st h) as [[st'|] evs]; [|done].
    by rewrite IH.
  - rewrite Broadcast_iface_eligible, He, bind_ret. apply IH.
Qed.

Lemma dialled_app e1 e2 : dialled (e1 ++ e2) = dialled e1 ++ dialled e2.
Proof. apply omap_app. Qed.

(** A loop whose every round returns dials what its rounds dial. *)
Lemma range_dialled {A} (body : A → St → M St) (f : A → list Dest) l :
  Forall (λ x, ∀ st, tracked (body x st) st
                     ∧ ∀ h, dialled (body x st h).2 = f x) l →
  ∀ st h, dialled (range l body st h).2 = mjoin (f <$> l).
Proof.
  induction 1 as [|x l Hx _ IH]; intros st h; [done|].
  simpl. destruct (Hx st) as [Htr Hd].
  rewrite bind_unfold, (Htr h).
  specialize (IH (advance st (body x st h).2) (h ++ (body x st h).2)).
  destruct (range l body _ _) as [r evs']. simpl in *.
  by rewrite dialled_app, Hd, IH.
Qed.

Lemma Broadcast_addr_dialled nw pk addr st h :
  platform_Addr addr →
  dialled (Broadcast_addr nw pk addr st h).2
  = UDP <$> option_list (addr_target addr).
Proof.
  intros Hwf. destruct st as [sent lastErr].
  destruct addr as [ipNet|ip]; simpl; [|done].
  destruct (target_total ipNet Hwf) as [tgt Htgt]. rewrite Htgt. simpl.
  rewrite bind_ret. destruct tgt as [a|]; [|done].
  rewrite bind_unfold. unfold DialUDP.
  destruct (dial nw h (UDP a)) as [e|]; simpl; [done|].
  unfold mbind, M_bind, Write, Close. simpl.
  by destruct (write nw _ (UDP a) pk).
Qed.

Lemma join_option_list {A B} (f : A → option B) (g : B → Dest) l :
  mjoin ((λ x, g <$> option_list (f x)) <$> l) = g <$> omap f l.
Proof.
  induction l as [|x l IH]; [done|]. csimpl. rewrite IH.
  by destruct (f x).
Qed.

Lemma Broadcast_iface_dialled nw pk iface st h :
  platform_Interface iface →
  dialled (Broadcast_iface nw pk iface st h).2 = UDP <$> iface_targets iface.
Proof.
  intros Hwf. rewrite Broadcast_iface_eligible. unfold iface_targets.
  destruct (eligible iface); [|done].
  unfold platform_Interface in Hwf.
  destruct (Addrs iface) as [addrs|e]; [|done].
  rewrite (range_dialled _ (λ a, UDP <$> option_list (addr_target a))).
  - apply join_option_list.
  - eapply Forall_impl; [exact Hwf|]. intros addr Haddr st'. split.
    + by apply Broadcast_addr_tracked.
    + intros h'. by apply Broadcast_addr_dialled.
Qed.

(** On a snapshot as the platform reports it, the per-interface sends dial
    every directed-broadcast target of the eligible interfaces exactly
    once, in order: a failure on one target never stops the next. *)
Theorem every_target_is_tried nw pk ifaces h :
  platform_snapshot ifaces →
  dialled (Broadcast_interfaces nw pk ifaces h).2 = UDP <$> targets ifaces.
Proof.
  intros Hwf. unfold Broadcast_interfaces, targets.
  rewrite (range_dialled _ (λ iface, UDP <$> iface_targets iface)).
  - induction ifaces as [|iface ifaces IH]; [done|]. simpl.
    rewrite fmap_app. f_equal. apply IH. by inversion Hwf.
  - eapply Forall_impl; [exact Hwf|]. intros iface Hi st. split.
    + by apply Broadcast_iface_tracked.
    + intros h'. by apply Broadcast_iface_dialled.
Qed.

Lemma every_target_is_tried_witness :
  platform_snapshot [Ex.lo; Ex.eth0]
  ∧ dialled (Broadcast_interfaces Ex.unreachable Ex.pk [Ex.lo; Ex.eth0] []).2
    = [UDP Ex.lan_target; UDP Ex.wan_target].
Proof.
  split; [exact eth0_platform|].
  exact (every_target_is_tried Ex.unreachable Ex.pk [Ex.lo; Ex.eth0] []
           eth0_platform).
Defined.

End engine_targets.

(** ** The broadcast address and the result of Broadcast *)

Section engine_results.
Import Go net Eff magicpacket transmit enginespec.

Lemma byte_high_bits b k : is_byte b → (8 ≤ k)%Z → Z.testbit b k = false.
Proof.
  intros Hb Hk. rewrite <- (Z.mod_small b (2 ^ 8)) by (unfold is_byte in Hb; lia).
  apply Z.mod_pow2_bits_high. lia.
Qed.

Lemma byte_not_bit m k :
  (0 ≤ k)%Z →
  Z.testbit (byte_not m) k = negb (Z.testbit m k) && Z.testbit 255 k.
Proof. intros Hk. unfold byte_not. by rewrite Z.land_spec, Z.lnot_spec. Qed.

Lemma octet_network a m : Z.land (Z.lor a (byte_not m)) m = Z.land a m.
Proof.
  apply Z.bits_inj'. intros k Hk.
  rewrite !Z.land_spec, Z.lor_spec, byte_not_bit by done.
  by destruct (Z.testbit a k), (Z.testbit m k), (Z.testbit 255 k).
Qed.

Lemma octet_hosts a m :
  is_byte a → is_byte m → Z.lor (Z.lor a (byte_not m)) m = 255%Z.
Proof.
  intros Ha Hm. apply Z.bits_inj'. intros k Hk.
  rewrite !Z.lor_spec, byte_not_bit by done.
  destruct (Z.lt_ge_cases k 8) as [Hlt|Hge].
  - rewrite testbit_255 by lia.
    by destruct (Z.testbit a k), (Z.testbit m k).
  - rewrite (byte_high_bits a), (byte_high_bits m),
      (byte_high_bits 255) by (done || unfold is_byte; lia).
    done.
Qed.

Lemma octet_again a m :
  Z.lor (Z.lor a (byte_not m)) (byte_not m) = Z.lor a (byte_not m).
Proof. by rewrite <- Z.lor_assoc, Z.lor_diag. Qed.

(** The address computed at lines 69-72 is the top of the subnet: it
    agrees with the interface address on the bits of the mask, has every
    bit outside the mask set, is made of bytes again, and is its own
    broadcast address. *)
Theorem broadcast_is_top_of_subnet (ip4 mask : list byte) :
  length ip4 = 4 → length mask = 4 →
  Forall is_byte ip4 → Forall is_byte mask →
  ∃ b,
    broadcastIP ip4 mask = Some b ∧
    Forall is_byte b ∧
    zip_with Z.land b mask = zip_with Z.land ip4 mask ∧
    zip_with Z.lor b mask = replicate 4 255%Z ∧
    broadcastIP b mask = Some b.
Proof.
  intros Hip Hmask Hbi Hbm.
  destruct ip4 as [|a0 [|a1 [|a2 [|a3 [|? ?]]]]]; try done.
  destruct mask as [|m0 [|m1 [|m2 [|m3 [|? ?]]]]]; try done.
  apply Forall_cons in Hbi as [Ha0 Hbi]. apply Forall_cons in Hbi as [Ha1 Hbi].
  apply Forall_cons in Hbi as [Ha2 Hbi]. apply Forall_cons in Hbi as [Ha3 _].
  apply Forall_cons in Hbm as [Hm0 Hbm]. apply Forall_cons in Hbm as [Hm1 Hbm].
  apply Forall_cons in Hbm as [Hm2 Hbm]. apply Forall_cons in Hbm as [Hm3 _].
  eexists. split; [by apply broadcastIP_zip|]. simpl.
  split; [|split; [|split]].
  - repeat constructor; (apply lor_byte_range; [done | apply byte_not_range]).
  - by rewrite !octet_network.
  - by rewrite !octet_hosts.
  - rewrite broadcastIP_zip by done. simpl. by rewrite !octet_again.
Qed.

Lemma broadcast_is_top_of_subnet_witness :
  ∃ b,
    broadcastIP [192; 168; 1; 42]%Z [255; 255; 255; 0]%Z = Some b ∧
    zip_with Z.land b [255; 255; 255; 0]%Z = [192; 168; 1; 0]%Z ∧
    zip_with Z.lor b [255; 255; 255; 0]%Z = replicate 4 255%Z.
Proof.
  assert (Hb : ∀ l, Forall (λ b, (0 ≤ b < 256)%Z) l → Forall is_byte l)
    by (intros l H; exact H).
  destruct (broadcast_is_top_of_subnet [192; 168; 1; 42]%Z [255; 255; 255; 0]%Z
              eq_refl eq_refl)
    as (b & Hbip & _ & Hnet & Hhost & _).
  - apply Hb. repeat constructor; lia.
  - apply Hb. repeat constructor; lia.
  - exists b. split; [exact Hbip|]. split; [exact Hnet | exact Hhost].
Defined.

(** With the snapshot as the platform reports it, [Broadcast] always
    returns, and it returns nil exactly when some write of its log
    succeeded, directed or fallback: success means that a packet left. *)
Theorem Broadcast_nil_iff_written nw p h :
  (∀ ifaces, Interfaces nw = Ok ifaces → platform_snapshot ifaces) →
  ∃ r evs,
    Broadcast nw p h = (Returned r, evs) ∧
    (r = None ↔ ∃ d b, EvWrite d b None ∈ evs).
Proof.
  intros Hwf. destruct (Broadcast_packet_total p) as (pk & Hpk & _).
  destruct (Interfaces nw) as [ifaces|e] eqn:Hif.
  - rewrite (Broadcast_enumerated nw p pk ifaces h Hpk Hif (Hwf _ eq_refl)).
    set (attempts := (Broadcast_interfaces nw pk ifaces h).2).
    destruct (any_sent attempts) eqn:Hsent.
    { exists None, attempts. split; [done|]. split; [|done].
      intros _. by apply any_sent_true. }
    unfold Broadcast_fallback. rewrite bind_unfold. unfold DialUDP.
    destruct (dial nw (h ++ attempts) (UDP bcast)) as [e|]; simpl.
    + destruct (last_failure attempts); simpl;
        (eexists _, _; split; [reflexivity|]);
        rewrite <- any_sent_true; unfold any_sent in *;
        rewrite existsb_app, Hsent; simpl; split; done.
    + unfold mbind, M_bind, Write, Close. simpl.
      eexists _, _. split; [reflexivity|].
      rewrite <- any_sent_true. unfold any_sent in *.
      rewrite existsb_app, Hsent. simpl.
      destruct (write nw _ (UDP bcast) pk); simpl; split; done.
  - exists (Some e), []. split.
    + unfold Broadcast. rewrite Hpk, Hif. reflexivity.
    + split; [done|]. intros (d & b & Hin). by apply elem_of_nil in Hin.
Qed.

Lemma Broadcast_nil_iff_written_witness :
  (∀ ifaces, Interfaces Ex.fallback_only = Ok ifaces → platform_snapshot ifaces)
  ∧ ∃ r evs,
      Broadcast Ex.fallback_only Ex.mac [] = (Returned r, evs) ∧
      (r = None ↔ ∃ d b, EvWrite d b None ∈ evs).
Proof.
  assert (Hwf : ∀ ifaces, Interfaces Ex.fallback_only = Ok ifaces →
                          platform_snapshot ifaces).
  { intros ifaces [= <-]. exact eth0_platform. }
  split; [exact Hwf|].
  exact (Broadcast_nil_iff_written Ex.fallback_only Ex.mac [] Hwf).
Defined.

End engine_results.

(** ** What the status map holds *)

Section poller_entries.
Import Go net config probing serve.

Lemma getMachineStatus_cases env cfg i m :
  ∃ status err evs,
    getMachineStatus env cfg i m = ((status, err), evs) ∧
    (err = None →
       status = "unknown" ∧ IP m = None
       ∨ (status = "online" ∨ status = "offline") ∧ is_Some (IP m)).
Proof.
  unfold getMachineStatus, isAddressReachable.
  destruct (IP m) as [ip|]; [|eexists _, _, _; split; [done|]; auto].
  destruct (NewPinger env i ip); [eexists _, _, _; split; [done|]; done|].
  simpl. destruct (Run env i _) as [n|e]; simpl.
  - destruct (Z.of_nat n =? 0)%Z; eexists _, _, _; (split; [done|]);
      intros _; right; eauto.
  - eexists _, _, _; split; [done|]; done.
Qed.

Lemma entry_has_task env cfg order name status :
  getMachinesStatus env cfg order !! name = Some status →
  ∃ task, task ∈ order ∧ reported env cfg task = Some (name, status).
Proof.
  rewrite getMachinesStatus_list. intros Hl.
  apply elem_of_list_to_map_2 in Hl.
  apply elem_of_reverse, list_elem_of_omap in Hl. exact Hl.
Qed.

(** Under any schedule, an entry of the map is the status that the probe
    of a machine of that name returned without error: "unknown" only for a
    machine with no address, "online" or "offline" only for one with an
    address. The map never holds another string or another name. *)
Theorem entries_are_probe_results env cfg order name status :
  getMachinesStatus env cfg order !! name = Some status →
  ∃ i m evs,
    (i, m) ∈ order ∧ Name m = name ∧
    getMachineStatus env cfg i m = ((status, None), evs) ∧
    (status = "unknown" ∧ IP m = None
     ∨ (status = "online" ∨ status = "offline") ∧ is_Some (IP m)).
Proof.
  intros Hl. apply entry_has_task in Hl as ([i m] & Hin & Hrep).
  destruct (getMachineStatus_cases env cfg i m) as (s & err & evs & Hst & Hc).
  unfold reported in Hrep. simpl in Hrep. rewrite Hst in Hrep. simpl in Hrep.
  destruct err; [done|]. injection Hrep as Hn <-.
  exists i, m, evs. auto.
Qed.

Lemma entries_are_probe_results_witness :
  getMachinesStatus ExServe.env ExServe.cfg (spawned ExServe.cfg) !! "desk"
  = Some "online"
  ∧ ∃ i m evs,
      (i, m) ∈ spawned ExServe.cfg ∧ Name m = "desk" ∧
      getMachineStatus ExServe.env ExServe.cfg i m = (("online", None), evs).
Proof.
  assert (Hl : getMachinesStatus ExServe.env ExServe.cfg
                 (spawned ExServe.cfg) !! "desk" = Some "online")
    by reflexivity.
  split; [exact Hl|].
  destruct (entries_are_probe_results _ _ _ _ _ Hl)
    as (i & m & evs & Hin & Hn & Hst & _).
  exists i, m, evs. split; [exact Hin|]. split; [exact Hn | exact Hst].
Defined.

Lemma names_unique cfg i j (m m' : Machine) :
  NoDup (Name <$> Machines cfg) →
  Machines cfg !! i = Some m → Machines cfg !! j = Some m' →
  Name m' = Name m → j = i.
Proof.
  intros Hnd Hi Hj Hn.
  apply (NoDup_lookup _ j i (Name m) Hnd); rewrite list_lookup_fmap.
  - by rewrite Hj, <- Hn.
  - by rewrite Hi.
Qed.

(** When the machines have pairwise distinct names, the map does not
    depend on the order in which the goroutines finish: each machine has
    the status of its own probe if that returned without error, and no
    entry otherwise. *)
Theorem distinct_names_fix_the_map env cfg order i m :
  NoDup (Name <$> Machines cfg) →
  order ≡ₚ spawned cfg →
  Machines cfg !! i = Some m →
  getMachinesStatus env cfg order !! Name m
  = match (getMachineStatus env cfg i m).1 with
    | (status, None) => Some status
    | (_, Some _) => None
    end.
Proof.
  intros Hnd Hperm Hi.
  destruct (getMachineStatus env cfg i m) as [[status [err|]] evs] eqn:Hst;
    simpl.
  - apply (errored_machine_has_no_entry env cfg order i m err); try done.
    + by rewrite Hst.
    + intros j m' Hj Hn. by eapply names_unique.
  - destruct (probed_machine_has_entry env cfg order i m Hperm Hi)
      as [s Hs]; [by rewrite Hst|].
    rewrite Hs. f_equal.
    apply entry_has_task in Hs as ([j m'] & Hin & Hrep).
    rewrite Hperm in Hin. apply elem_of_spawned in Hin.
    unfold reported in Hrep. simpl in Hrep.
    destruct (getMachineStatus env cfg j m') as [[s' [e|]] evs'] eqn:Hst';
      [done|].
    injection Hrep as Hn <-.
    assert (j = i) as -> by (by eapply names_unique).
    rewrite Hi in Hin. injection Hin as ->. rewrite Hst in Hst'.
    by injection Hst'.
Qed.

Lemma distinct_names_fix_the_map_witness :
  NoDup (Name <$> Machines ExServe.cfg)
  ∧ reverse (spawned ExServe.cfg) ≡ₚ spawned ExServe.cfg
  ∧ getMachinesStatus ExServe.env ExServe.cfg (reverse (spawned ExServe.cfg))
      !! "desk" = Some "online"
  ∧ getMachinesStatus ExServe.env ExServe.cfg (reverse (spawned ExServe.cfg))
      !! "printer" = None.
Proof.
  assert (Hnd : NoDup (Name <$> Machines ExServe.cfg)).
  { apply (bool_decide_unpack _). by vm_compute. }
  assert (Hperm : reverse (spawned ExServe.cfg) ≡ₚ spawned ExServe.cfg)
    by apply reverse_Permutation.
  split; [exact Hnd|]. split; [exact Hperm|]. split.
  - exact (distinct_names_fix_the_map ExServe.env ExServe.cfg _ 1 ExServe.desk
             Hnd Hperm eq_refl).
  - exact (distinct_names_fix_the_map ExServe.env ExServe.cfg _ 2
             ExServe.printer Hnd Hperm eq_refl).
Defined.

End poller_entries.

(** ** The wake handler *)

Section wake_handler.
Import Go net Eff magicpacket transmit enginespec config golib http handlers.

Lemma handleWake_lookup_None lib machines n :
  handleWake_lookup lib machines n = None ↔ Forall (no_match lib n) machines.
Proof.
  induction machines as [|m0 machines IH]; simpl; [by split|].
  destruct (EqualFold lib (config.Name m0) n) eqn:He.
  - split; [done|]. intros Hall. apply Forall_cons in Hall as [Hno _].
    unfold no_match in Hno. congruence.
  - rewrite IH. split; [by constructor|]. intros Hall.
    by apply Forall_cons in Hall as [_ ?].
Qed.

Lemma handleWake_lookup_Some lib machines n m :
  handleWake_lookup lib machines n = Some m
  ↔ ∃ before after,
      machines = before ++ m :: after ∧
      Forall (no_match lib n) before ∧
      EqualFold lib (config.Name m) n = true.
Proof.
  induction machines as [|m0 machines IH]; simpl.
  { split; [done|]. intros ([|??] & after & Heq & _); discriminate Heq. }
  destruct (EqualFold lib (config.Name m0) n) eqn:He.
  - split.
    + intros [= <-]. exists [], machines. by repeat split.
    + intros ([|b before] & after & Heq & Hno & Hm); injection Heq as -> ?.
      { done. }
      apply Forall_cons in Hno as [Hno _]. unfold no_match in Hno. congruence.
  - rewrite IH. split.
    + intros (before & after & -> & Hno & Hm).
      exists (m0 :: before), after. split; [done|]. split; [|done].
      by constructor.
    + intros ([|b before] & after & Heq & Hno & Hm); injection Heq as -> ?.
      { congruence. }
      subst machines. apply Forall_cons in Hno as [_ Hno].
      by exists before, after.
Qed.

(** The loop of lines 103-109 stops at the first machine whose name
    matches: it finds [m] exactly when [m] matches and no machine before it
    does, and it finds nothing exactly when no machine matches. *)
Theorem lookup_takes_first_match lib machines n :
  (handleWake_lookup lib machines n = None ↔ Forall (no_match lib n) machines)
  ∧ ∀ m,
      handleWake_lookup lib machines n = Some m
      ↔ ∃ before after,
          machines = before ++ m :: after ∧
          Forall (no_match lib n) before ∧
          EqualFold lib (config.Name m) n = true.
Proof.
  split.
  - apply handleWake_lookup_None.
  - intros m. apply handleWake_lookup_Some.
Qed.

(** A request is refused with status 400, before any socket is touched,
    when no machine matches the name ("Machine not found") and when the
    MAC of the first match does not parse (the parser's message), even if
    a later machine of the same name has a MAC that parses. *)
Theorem handleWake_refuses_before_sending lib cfg nw r h :
  (Forall (no_match lib (FormValue r "name")) (Machines cfg) →
   handleWake lib cfg nw r h
   = (Returned [Error "Machine not found" StatusBadRequest], [])) ∧
  (∀ before m after err,
     Machines cfg = before ++ m :: after →
     Forall (no_match lib (FormValue r "name")) before →
     EqualFold lib (config.Name m) (FormValue r "name") = true →
     ParseMAC lib (Mac m) = Err err →
     handleWake lib cfg nw r h = (Returned [Error err StatusBadRequest], [])).
Proof.
  split.
  - intros Hall. apply handleWake_lookup_None in Hall.
    unfold handleWake. by rewrite Hall.
  - intros before m after err Heq Hno Hm Hparse.
    assert (Hl : handleWake_lookup lib (Machines cfg) (FormValue r "name")
                 = Some m) by (apply handleWake_lookup_Some; eauto).
    unfold handleWake. by rewrite Hl, Hparse.
Qed.

Lemma handleWake_refuses_before_sending_witness :
  handleWake ExCmd.lib ExCmd.cfg ExCmd.wan_only (ExCmd.wake "attic" None) []
  = (Returned [Error "Machine not found" StatusBadRequest], [])
  ∧ handleWake ExCmd.lib ExCmd.cfg ExCmd.wan_only (ExCmd.wake "twin" None) []
    = (Returned [Error "address zz: invalid MAC address" StatusBadRequest], []).
Proof.
  destruct (handleWake_refuses_before_sending ExCmd.lib ExCmd.cfg
              ExCmd.wan_only (ExCmd.wake "attic" None) []) as [Hnone _].
  destruct (handleWake_refuses_before_sending ExCmd.lib ExCmd.cfg
              ExCmd.wan_only (ExCmd.wake "twin" None) []) as [_ Hbad].
  split.
  - apply Hnone. repeat constructor.
  - apply (Hbad [ExCmd.nas; ExCmd.gate; ExCmd.broken] ExCmd.twin1 [ExCmd.twin2]
             "address zz: invalid MAC address").
    + reflexivity.
    + repeat constructor.
    + reflexivity.
    + reflexivity.
Defined.

Lemma Send_returns nw mp addr h :
  ∃ err, Send nw mp addr h = (Returned err, (Send nw mp addr h).2).
Proof.
  destruct (Send_packet_total mp) as (pk & Hpk & _).
  pose proof (Send_run nw mp pk addr h Hpk) as Hrun.
  destruct (dial nw h (Named addr)); rewrite Hrun; eauto.
Qed.

Lemma handleWake_unicast_returns nw mp m h :
  handleWake_unicast nw mp m h
  = (Returned (), (handleWake_unicast nw mp m h).2).
Proof.
  unfold handleWake_unicast. destruct (IP m) as [ip|]; [|done].
  destruct (negb (String.eqb ip "")); [|done].
  rewrite bind_unfold. destruct (Send_returns nw mp (ip +:+ ":9") h) as [e ->].
  done.
Qed.

(** For a machine that is found and whose MAC parses: the unicast packet
    goes first, to [ip:9], only when an address is configured and is not
    the empty string; the broadcast follows whatever the unicast did, and
    it alone decides the response: redirect with the flash message when it
    returns nil, status 500 with its error otherwise. *)
Theorem handleWake_unicast_never_decides lib cfg nw r h before m after mac :
  Machines cfg = before ++ m :: after →
  Forall (no_match lib (FormValue r "name")) before →
  EqualFold lib (config.Name m) (FormValue r "name") = true →
  ParseMAC lib (Mac m) = Ok mac →
  let mp := NewMagicPacket mac in
  let uni :=
    match IP m with
    | Some ip => if String.eqb ip "" then []
                 else (Send nw mp (ip +:+ ":9") h).2
    | None => []
    end in
  match Broadcast nw mp (h ++ uni) with
  | (Returned None, evs) =>
      handleWake lib cfg nw r h
      = (Returned
           [SetCookie {| Name := "flash";
                         Value := "Wake-up signal sent to "
                                  +:+ FormValue r "name"
                                  +:+ ". The machine should wake up shortly.";
                         Path := "/"; Expires := None |};
            Redirect "/" StatusSeeOther],
         uni ++ evs)
  | (Returned (Some err), evs) =>
      handleWake lib cfg nw r h
      = (Returned [Error err StatusInternalServerError], uni ++ evs)
  | (Panicked, evs) => handleWake lib cfg nw r h = (Panicked, uni ++ evs)
  end.
Proof.
  intros Heq Hno Hm Hparse mp uni.
  assert (Hl : handleWake_lookup lib (Machines cfg) (FormValue r "name")
               = Some m).
  { apply handleWake_lookup_Some. eauto. }
  assert (Huni : handleWake_unicast nw mp m h = (Returned (), uni)).
  { rewrite handleWake_unicast_returns. f_equal.
    unfold handleWake_unicast, uni. destruct (IP m) as [ip|]; [|done].
    destruct (String.eqb ip ""); [done|]. simpl.
    rewrite bind_unfold. destruct (Send_returns nw mp (ip +:+ ":9") h) as [e ->].
    simpl. apply app_nil_r. }
  unfold handleWake. rewrite Hl, Hparse. fold mp.
  rewrite bind_unfold, Huni, bind_unfold.
  destruct (Broadcast nw mp (h ++ uni)) as [[[err|]|] evs]; simpl;
    by rewrite ?app_nil_r.
Qed.

Lemma handleWake_unicast_never_decides_witness :
  handleWake ExCmd.lib ExCmd.cfg ExCmd.lan_only (ExCmd.wake "gate" None) []
  = (Returned
       [SetCookie {| Name := "flash";
                     Value := "Wake-up signal sent to gate. The machine should wake up shortly.";
                     Path := "/"; Expires := None |};
        Redirect "/" StatusSeeOther],
     [EvDial (Named "203.0.113.7:9") (Some "network is unreachable"%string);
      EvDial (UDP Ex.lan_target) None;
      EvWrite (UDP Ex.lan_target) Ex.pk None;
      EvClose (UDP Ex.lan_target);
      EvDial (UDP Ex.wan_target) None;
      EvWrite (UDP Ex.wan_target) Ex.pk None;
      EvClose (UDP Ex.wan_target)])
  ∧ handleWake ExCmd.lib ExCmd.cfg ExCmd.wan_only (ExCmd.wake "gate" None) []
    = (Returned [Error "failed to send packet: network is unreachable (last error)"
                   StatusInternalServerError],
       [EvDial (Named "203.0.113.7:9") None;
        EvWrite (Named "203.0.113.7:9") Ex.pk None;
        EvClose (Named "203.0.113.7:9");
        EvDial (UDP Ex.lan_target) (Some "network is unreachable"%string);
        EvDial (UDP Ex.wan_target) (Some "network is unreachable"%string);
        EvDial (UDP bcast) (Some "network is unreachable"%string)]).
Proof.
  assert (Hno : Forall (no_match ExCmd.lib
                          (FormValue (ExCmd.wake "gate" None) "name"))
                  [ExCmd.nas]) by (by repeat constructor).
  split.
  - exact (handleWake_unicast_never_decides ExCmd.lib ExCmd.cfg ExCmd.lan_only
             (ExCmd.wake "gate" None) [] [ExCmd.nas] ExCmd.gate
             [ExCmd.broken; ExCmd.twin1; ExCmd.twin2]
             [0x00; 0x11; 0x22; 0x33; 0x44; 0x55]%Z
             eq_refl Hno eq_refl eq_refl).
  - exact (handleWake_unicast_never_decides ExCmd.lib ExCmd.cfg ExCmd.wan_only
             (ExCmd.wake "gate" None) [] [ExCmd.nas] ExCmd.gate
             [ExCmd.broken; ExCmd.twin1; ExCmd.twin2]
             [0x00; 0x11; 0x22; 0x33; 0x44; 0x55]%Z
             eq_refl Hno eq_refl eq_refl).
Defined.

End wake_handler.

(** ** Authentication and the flash cookie *)

Section middleware.
Import Go net Eff magicpacket transmit config golib http handlers.

(** The wrapped handler runs exactly when the request carries basic
    credentials whose password is the expected one, under any user name;
    every other request gets the challenge and status 401, and the handler
    is not run: nothing is sent for it. *)
Theorem authMiddleware_guards (next : Request → M (list Call)) r h :
  ((∃ user, BasicAuth r = Some (user, "4056063")) →
   authMiddleware next r h = next r h) ∧
  ((∀ user, BasicAuth r ≠ Some (user, "4056063")) →
   authMiddleware next r h
   = (Returned
        [HeaderSet "WWW-Authenticate"
           ("Basic realm=" +:+ dquote +:+ "Restricted" +:+ dquote);
         Error "Unauthorized" StatusUnauthorized],
      [])).
Proof.
  unfold authMiddleware. split.
  - intros [user ->]. done.
  - intros Hbad. destruct (BasicAuth r) as [[user password]|]; [|done].
    destruct (String.eqb_spec password "4056063") as [->|Hne]; [|done].
    by destruct (Hbad user).
Qed.

Lemma authMiddleware_guards_witness :
  authMiddleware (handleWake ExCmd.lib ExCmd.cfg ExCmd.lan_only)
    (ExCmd.wake "gate" (Some ("admin", "letmein"))) []
  = (Returned
       [HeaderSet "WWW-Authenticate"
          ("Basic realm=" +:+ dquote +:+ "Restricted" +:+ dquote);
        Error "Unauthorized" StatusUnauthorized],
     [])
  ∧ authMiddleware (handleWake ExCmd.lib ExCmd.cfg ExCmd.lan_only)
      (ExCmd.wake "gate" (Some ("anyone", "4056063"))) []
    = handleWake ExCmd.lib ExCmd.cfg ExCmd.lan_only
        (ExCmd.wake "gate" (Some ("anyone", "4056063"))) [].
Proof.
  split.
  - apply (authMiddleware_guards (handleWake ExCmd.lib ExCmd.cfg ExCmd.lan_only)
             (ExCmd.wake "gate" (Some ("admin", "letmein"))) []).
    intros user. discriminate.
  - apply (authMiddleware_guards (handleWake ExCmd.lib ExCmd.cfg ExCmd.lan_only)
             (ExCmd.wake "gate" (Some ("anyone", "4056063"))) []).
    by exists "anyone"%string.
Defined.

Lemma Hour_pos : (0 < Hour)%Z.
Proof. reflexivity. Qed.

Lemma Request_Cookie_first r n before c after :
  Cookies r = before ++ c :: after →
  Forall (λ c', Name c' ≠ n) before → Name c = n →
  Request_Cookie r n = Some c.
Proof.
  unfold Request_Cookie. intros -> Hno Hc.
  induction Hno as [|c' before Hc' _ IH]; simpl.
  - by rewrite (proj2 (String.eqb_eq _ _) Hc).
  - by rewrite (proj2 (String.eqb_neq _ _) Hc').
Qed.

Lemma Request_Cookie_none r n :
  Forall (λ c', Name c' ≠ n) (Cookies r) → Request_Cookie r n = None.
Proof.
  unfold Request_Cookie. induction 1 as [|c' l Hc' _ IH]; simpl; [done|].
  by rewrite (proj2 (String.eqb_neq _ _) Hc').
Qed.

(** Reading the flash message takes the value of the first cookie named
    [flash] and clears it: the one cookie it sets has the name and path of
    the cookie that [setFlashMessage] sets, an empty value, and an expiry
    one hour before now. Without such a cookie it returns the empty string
    and sets nothing. *)
Theorem flash_is_cleared_when_read lib r :
  (Forall (λ c, Name c ≠ "flash") (Cookies r) →
   consumeFlashMessage lib r = ("", [])) ∧
  (∀ before c after,
     Cookies r = before ++ c :: after →
     Forall (λ c', Name c' ≠ "flash") before → Name c = "flash" →
     ∃ clear,
       consumeFlashMessage lib r = (Value c, [SetCookie clear]) ∧
       Value clear = "" ∧
       Expires clear = Some (Now lib + (-1) * Hour)%Z ∧
       (Now lib + (-1) * Hour < Now lib)%Z ∧
       ∀ message, ∃ set,
         setFlashMessage message = [SetCookie set] ∧
         Value set = message ∧
         Name clear = Name set ∧ Path clear = Path set).
Proof.
  unfold consumeFlashMessage. split.
  - intros Hno. by rewrite Request_Cookie_none.
  - intros before c after Heq Hno Hc.
    rewrite (Request_Cookie_first r "flash" before c after Heq Hno Hc).
    eexists. split; [reflexivity|].
    split; [reflexivity|]. split; [reflexivity|].
    split; [pose proof Hour_pos; lia|].
    intros message. eexists. split; [reflexivity|]. by repeat split.
Qed.

Lemma flash_is_cleared_when_read_witness :
  consumeFlashMessage ExCmd.lib
    {| FormValue := λ _, ""; BasicAuth := None;
       Cookies := [{| Name := "theme"; Value := "dark"; Path := "";
                      Expires := None |};
                   {| Name := "flash"; Value := "sent"; Path := "";
                      Expires := None |}] |}
  = ("sent",
     [SetCookie {| Name := "flash"; Value := ""; Path := "/";
                   Expires := Some 1699996400000000000%Z |}]).
Proof.
  destruct (flash_is_cleared_when_read ExCmd.lib
              {| FormValue := λ _, ""; BasicAuth := None;
                 Cookies := [{| Name := "theme"; Value := "dark"; Path := "";
                                Expires := None |};
                             {| Name := "flash"; Value := "sent"; Path := "";
                                Expires := None |}] |}) as [_ Hread].
  destruct (Hread [{| Name := "theme"; Value := "dark"; Path := "";
                      Expires := None |}]
              {| Name := "flash"; Value := "sent"; Path := ""; Expires := None |}
              [] eq_refl) as (clear & Hrun & _).
  - by repeat constructor.
  - reflexivity.
  - reflexivity.
Defined.

End middleware.

(** ** The send command *)

Section send_command.
Import Go net Eff magicpacket transmit enginespec config golib handlers sendcmd.

(** The command line and the web handler resolve a name in the same way:
    [getMacByName] parses the MAC of the machine that the loop of
    [handleWake] finds, reports a parse error of that machine, and reports
    "not found" when the loop finds none. *)
Theorem getMacByName_agrees_with_handleWake lib machines n :
  getMacByName lib machines n
  = match handleWake_lookup lib machines n with
    | None => Err ("machine with name " +:+ Quote lib n +:+ " not found")
    | Some m =>
        match ParseMAC lib (Mac m) with
        | Err err => Err ("failed to parse MAC address: " +:+ err)
        | Ok mac => Ok mac
        end
    end.
Proof.
  induction machines as [|m machines IH]; simpl; [done|].
  by destruct (EqualFold lib (config.Name m) n).
Qed.

Lemma getMacByName_no_match lib machines n :
  Forall (no_match lib n) machines →
  getMacByName lib machines n
  = Err ("machine with name " +:+ Quote lib n +:+ " not found").
Proof.
  induction 1 as [|m machines Hm _ IH]; simpl; [done|].
  unfold no_match in Hm. by rewrite Hm.
Qed.

Lemma getMacByName_first lib before m after n :
  Forall (no_match lib n) before →
  EqualFold lib (config.Name m) n = true →
  getMacByName lib (before ++ m :: after) n
  = match ParseMAC lib (Mac m) with
    | Err err => Err ("failed to parse MAC address: " +:+ err)
    | Ok mac => Ok mac
    end.
Proof.
  intros Hno Hm. induction Hno as [|m' before Hm' _ IH]; simpl.
  - by rewrite Hm.
  - unfold no_match in Hm'. by rewrite Hm'.
Qed.

Lemma Run_ends lib cfg nw flags h mac0 :
  Run_mac lib cfg flags = inl mac0 →
  (Run lib cfg nw flags h).1 = Panicked
  ∨ (Run lib cfg nw flags h).1 = Returned Finished
  ∨ ∃ err, (Run lib cfg nw flags h).1 = Returned (CheckErr err).
Proof.
  intros Hmac. unfold Run. rewrite Hmac.
  destruct (negb (String.eqb (ip flags) "")); rewrite bind_unfold.
  - destruct (Send nw _ _ h) as [[[err|]|] evs]; simpl; eauto.
  - destruct (Broadcast nw _ h) as [[[err|]|] evs]; simpl; eauto.
Qed.

(** The command goes past [PreRunE] exactly when one of [--mac] and
    [--name] is given; otherwise [Run] is not called and nothing is
    sent. Behind that check the [default] case of [Run] is dead: the
    command never ends in [log.Fatalf]. *)
Theorem sendCmd_wants_exactly_one_flag lib cfg nw flags h :
  (PreRunE flags = None
   ↔ (is_Some (mac flags) ∧ name flags = None)
     ∨ (mac flags = None ∧ is_Some (name flags))) ∧
  (PreRunE flags ≠ None →
   sendCmd lib cfg nw flags h
   = (Returned (Refused "either --mac or --name must be specified"), [])) ∧
  (∀ msg, (sendCmd lib cfg nw flags h).1 ≠ Returned (Fatalf msg)).
Proof.
  unfold sendCmd, PreRunE.
  destruct (mac flags) as [v|] eqn:Hm, (name flags) as [n|] eqn:Hn; simpl.
  - split; [|split; [done|done]]. split; [done|].
    intros [[_ ?]|[? _]]; done.
  - split; [|split; [done|]].
    + split; [|done]. intros _. left. by split; [eexists|].
    + intros msg.
      destruct (Run_mac lib cfg flags) as [mac0|exit] eqn:Hrm.
      * destruct (Run_ends lib cfg nw flags h mac0 Hrm) as [->|[->|[err ->]]];
          done.
      * unfold Run. rewrite Hrm. simpl. unfold Run_mac in Hrm.
        rewrite Hm in Hrm. destruct (ParseMAC lib v); [done|].
        by injection Hrm as <-.
  - split; [|split; [done|]].
    + split; [|done]. intros _. right. by split; [|eexists].
    + intros msg.
      destruct (Run_mac lib cfg flags) as [mac0|exit] eqn:Hrm.
      * destruct (Run_ends lib cfg nw flags h mac0 Hrm) as [->|[->|[err ->]]];
          done.
      * unfold Run. rewrite Hrm. simpl. unfold Run_mac in Hrm.
        rewrite Hm, Hn in Hrm.
        destruct (getMacByName lib (Machines cfg) n); [done|].
        by injection Hrm as <-.
  - split; [|split; [done|done]]. split; [done|].
    intros [[[? ?] _]|[_ [? ?]]]; done.
Qed.

(** When the address cannot be resolved the command exits on that error
    and nothing is sent: a [--mac] value that does not parse, a [--name]
    that no machine matches, a first match whose MAC does not parse. *)
Theorem Run_fails_before_sending lib cfg nw flags h :
  (∀ value err,
     mac flags = Some value → ParseMAC lib value = Err err →
     Run lib cfg nw flags h = (Returned (CheckErr err), [])) ∧
  (∀ n,
     mac flags = None → name flags = Some n →
     Forall (no_match lib n) (Machines cfg) →
     Run lib cfg nw flags h
     = (Returned (CheckErr ("machine with name " +:+ Quote lib n
                            +:+ " not found")), [])) ∧
  (∀ n before m after err,
     mac flags = None → name flags = Some n →
     Machines cfg = before ++ m :: after →
     Forall (no_match lib n) before →
     EqualFold lib (config.Name m) n = true →
     ParseMAC lib (Mac m) = Err err →
     Run lib cfg nw flags h
     = (Returned (CheckErr ("failed to parse MAC address: " +:+ err)), [])).
Proof.
  unfold Run, Run_mac. split; [|split].
  - intros value err -> ->. done.
  - intros n -> -> Hno. by rewrite getMacByName_no_match.
  - intros n before m after err -> -> Heq Hno Hm Hparse.
    by rewrite Heq, getMacByName_first, Hparse.
Qed.

Lemma Run_fails_before_sending_witness :
  Run ExCmd.lib ExCmd.cfg ExCmd.lan_only
    {| mac := Some "00-11"; name := None; ip := ""; port := "9" |} []
  = (Returned (CheckErr "address 00-11: invalid MAC address"), [])
  ∧ Run ExCmd.lib ExCmd.cfg ExCmd.lan_only
      {| mac := None; name := Some "twin"; ip := ""; port := "9" |} []
    = (Returned (CheckErr "failed to parse MAC address: address zz: invalid MAC address"),
       []).
Proof.
  split.
  - apply (proj1 (Run_fails_before_sending ExCmd.lib ExCmd.cfg ExCmd.lan_only
                    {| mac := Some "00-11"; name := None; ip := "";
                       port := "9" |} []) "00-11"%string);
      reflexivity.
  - apply (proj2 (proj2 (Run_fails_before_sending ExCmd.lib ExCmd.cfg
                           ExCmd.lan_only
                           {| mac := None; name := Some "twin"; ip := "";
                              port := "9" |} []))
             "twin"%string [ExCmd.nas; ExCmd.gate; ExCmd.broken] ExCmd.twin1
             [ExCmd.twin2] "address zz: invalid MAC address"%string);
      try reflexivity.
    by repeat constructor.
Defined.

(** Once the address is resolved the command takes one path. With [--ip]
    every socket operation goes to [ip:port] and nothing is broadcast, and
    the command finishes exactly when the one write succeeds. Without it
    the command does what [Broadcast] does, contacts only broadcast
    destinations on port 9, and finishes exactly when [Broadcast] returns
    nil. *)
Theorem Run_takes_one_path lib cfg nw flags h mac0 :
  Run_mac lib cfg flags = inl mac0 →
  let mp := NewMagicPacket mac0 in
  let addr := ip flags +:+ ":" +:+ port flags in
  (ip flags ≠ "" →
   Forall (λ e, dest e = Named addr) (Run lib cfg nw flags h).2 ∧
   (Run lib cfg nw flags h).2 = (Send nw mp addr h).2 ∧
   ((Run lib cfg nw flags h).1 = Returned Finished
    ↔ ∃ b, EvWrite (Named addr) b None ∈ (Run lib cfg nw flags h).2)) ∧
  (ip flags = "" →
   Forall broadcast_dest (Run lib cfg nw flags h).2 ∧
   (Run lib cfg nw flags h).2 = (Broadcast nw mp h).2 ∧
   ((Run lib cfg nw flags h).1 = Returned Finished
    ↔ (Broadcast nw mp h).1 = Returned None)).
Proof.
  intros Hmac mp addr. unfold Run. rewrite Hmac. fold mp addr. split.
  - intros Hip. rewrite (proj2 (String.eqb_neq _ _) Hip). simpl.
    rewrite bind_unfold.
    destruct (Send_packet_total mp) as (pk & Hpk & _).
    pose proof (Send_run nw mp pk addr h Hpk) as Hrun.
    destruct (dial nw h (Named addr)) as [e|]; rewrite Hrun; simpl.
    + split; [by repeat constructor|]. split; [done|]. split; [done|].
      intros (b & Hin). apply list_elem_of_singleton in Hin. done.
    + destruct (write nw _ (Named addr) pk) as [e|]; simpl.
      * split; [by repeat constructor|]. split; [done|]. split; [done|].
        intros (b & Hin). rewrite !elem_of_cons, elem_of_nil in Hin.
        destruct Hin as [?|[?|[?|[]]]]; done.
      * split; [by repeat constructor|]. split; [done|]. split; [|done].
        intros _. exists pk. rewrite !elem_of_cons. auto.
  - intros ->. simpl. rewrite bind_unfold.
    destruct (Broadcast_packet_total mp) as (pk & Hpk & _).
    pose proof (Broadcast_dests nw mp pk Hpk h) as Hports.
    destruct (Broadcast nw mp h) as [[[err|]|] evs]; simpl in *;
      rewrite ?app_nil_r; (split; [done|]); (split; [done|]); split; done.
Qed.

Lemma Run_takes_one_path_witness :
  Run_mac ExCmd.lib ExCmd.cfg
    {| mac := None; name := Some "nas"; ip := "203.0.113.7"; port := "7" |}
  = inl [0x00; 0x11; 0x22; 0x33; 0x44; 0x55]%Z
  ∧ Forall (λ e, dest e = Named "203.0.113.7:7")
      (Run ExCmd.lib ExCmd.cfg ExCmd.wan_only
         {| mac := None; name := Some "nas"; ip := "203.0.113.7";
            port := "7" |} []).2.
Proof.
  split; [reflexivity|].
  apply (proj1 (Run_takes_one_path ExCmd.lib ExCmd.cfg ExCmd.wan_only
                  {| mac := None; name := Some "nas"; ip := "203.0.113.7";
                     port := "7" |} []
                  [0x00; 0x11; 0x22; 0x33; 0x44; 0x55]%Z eq_refl)).
  discriminate.
Defined.

Lemma sendCmd_wants_exactly_one_flag_witness :
  sendCmd ExCmd.lib ExCmd.cfg ExCmd.lan_only
    {| mac := Some "00:11:22:33:44:55"; name := Some "nas"; ip := "";
       port := "9" |} []
  = (Returned (Refused "either --mac or --name must be specified"), []).
Proof.
  apply (proj1 (proj2 (sendCmd_wants_exactly_one_flag ExCmd.lib ExCmd.cfg
                         ExCmd.lan_only
                         {| mac := Some "00:11:22:33:44:55"; name := Some "nas";
                            ip := ""; port := "9" |} []))).
  discriminate.
Defined.

End send_command.

(** ** The packet for an address of any length *)

Section packet_any_length.
Import Go magicpacket.

(** A counting loop whose invariant follows the counter. *)
Lemma for_range_counted {St} (P : nat → St → Prop)
    (body : nat → St → option St) :
  ∀ n lo s,
    P lo s →
    (∀ i t, lo ≤ i < lo + n → P i t → ∃ t', body i t = Some t' ∧ P (S i) t') →
    ∃ s', for_range n lo body s = Some s' ∧ P (lo + n) s'.
Proof.
  induction n as [|n IH]; intros lo s Hs Hbody; simpl.
  - exists s. by rewrite Nat.add_0_r.
  - destruct (Hbody lo s) as (t & -> & Ht); [lia | done |]. simpl.
    rewrite <- Nat.add_succ_comm. apply IH; [done|].
    intros i u Hi Hu. apply Hbody; [lia | done].
Qed.

Lemma join_replicate_snoc {A} (w : list A) k :
  mjoin (replicate k w) ++ w = mjoin (replicate (S k) w).
Proof.
  induction k as [|k IH]; simpl; [by rewrite app_nil_r|].
  by rewrite <- app_assoc, IH.
Qed.

(** One copy of the address into a window that still has at least six
    bytes: the window starts with the address cut or padded to six. *)
Lemma copy_window (dst mac : list byte) :
  6 ≤ length dst →
  (length mac < 6 → dst = replicate (length dst) 0%Z) →
  take 6 (copy dst mac) = take 6 (mac ++ replicate 6 0%Z) ∧
  (length mac < 6 →
   drop 6 (copy dst mac) = replicate (length dst - 6) 0%Z).
Proof.
  intros Hdst Hzero. unfold copy.
  destruct (Nat.lt_ge_cases (length mac) 6) as [Hshort|Hlong].
  - rewrite (Hzero Hshort), length_replicate.
    rewrite Nat.min_r by lia. rewrite firstn_all, drop_replicate.
    split.
    + rewrite !take_app_ge, !take_replicate by lia. f_equal. f_equal. lia.
    + intros _. rewrite drop_app_ge, drop_replicate by lia. f_equal. lia.
  - split; [|lia].
    rewrite !take_app_le by (rewrite ?length_take; lia).
    rewrite take_take. f_equal. lia.
Qed.

(** For an address of any length the payload is the sync stream followed
    by sixteen copies of the address cut to its first six bytes, or padded
    with zero bytes up to six: extra bytes of a longer address never reach
    the wire. *)
Theorem packet_cuts_or_pads_to_six (p : MagicPacket) :
  let w := take 6 (MacAddress p ++ replicate 6 0%Z) in
  Broadcast_packet p = Some (replicate 6 255%Z ++ mjoin (replicate 16 w))
  ∧ Send_packet p = Some (replicate 6 255%Z ++ mjoin (replicate 16 w)).
Proof.
  intros w.
  cut (Broadcast_packet p
       = Some (replicate 6 255%Z ++ mjoin (replicate 16 w))).
  { intros Hb. split; [exact Hb|]. rewrite <- Hb. symmetry.
    apply builders_agree. }
  unfold Broadcast_packet.
  change (for_range 6 0 (λ i packet, store packet i 255%Z) (make 102))
    with (Some (replicate 6 255%Z ++ replicate 96 0%Z)).
  cbn [mbind option_bind].
  pose (P := λ i (s : list byte),
          length s = 102 ∧
          take (6 * i) s = replicate 6 255%Z ++ mjoin (replicate (i - 1) w) ∧
          (length (MacAddress p) < 6 →
           drop (6 * i) s = replicate (102 - 6 * i) 0%Z)).
  destruct (for_range_counted P
              (λ i packet, copy_at packet (i * 6) (MacAddress p)) 16 1
              (replicate 6 255%Z ++ replicate 96 0%Z))
    as (s & -> & Hlen & Htake & _).
  - repeat split.
  - intros i t Hi (Hlen & Htake & Hdrop).
    unfold copy_at, slice_from.
    destruct (Nat.leb_spec (i * 6) (length t)) as [_|]; [|lia]. simpl.
    eexists. split; [reflexivity|].
    assert (Hd : length (drop (i * 6) t) = 102 - 6 * i)
      by (rewrite length_drop; lia).
    destruct (copy_window (drop (i * 6) t) (MacAddress p)) as [Hw Hz].
    { lia. }
    { intros Hshort. rewrite Hd, Nat.mul_comm. by apply Hdrop. }
    assert (Ht : length (take (i * 6) t) = 6 * i)
      by (rewrite length_take; lia).
    split; [|split].
    + rewrite length_app, length_copy. lia.
    + replace (6 * S i) with (length (take (i * 6) t) + 6) by lia.
      rewrite take_app_add, Hw. fold w.
      rewrite (Nat.mul_comm i 6), Htake, <- app_assoc. f_equal.
      rewrite join_replicate_snoc. f_equal. f_equal. lia.
    + intros Hshort.
      replace (6 * S i) with (length (take (i * 6) t) + 6) by lia.
      rewrite drop_app_add, (Hz Hshort), Hd. f_equal. lia.
  - f_equal. rewrite <- (take_ge s (6 * (1 + 16))) by lia. exact Htake.
Qed.

End packet_any_length.
